(** * Canvas particle simulation: physics step, pointer force field,
      connection graph and particle creation of [try_canvas.js].

    JavaScript numbers are modelled as exact rationals [Q]: every
    comparison, sum, product and quotient of the source is the rational
    one.  The library calls [Math.hypot], [Math.sqrt] and [Math.random]
    are taken as an interface, [MathLib]. *)

From Stdlib Require Import QArith Qabs Qround Qminmax ZArith List Lia Lqa Bool Arith.
From Stdlib Require Import Sorted.
From Stdlib Require String.
Import ListNotations.

Open Scope Q_scope.

(** * Part I: the program *)

(** ** Numbers *)

(** The source's [a < b] and [a > b] on numbers. *)
Definition Qltb (a b : Q) : bool := negb (Qle_bool b a).
Definition Qgtb (a b : Q) : bool := Qltb b a.

(** [lra] on [Q] does not read a division by a numeral: turn [a / 2] into
    [a * (1 # 2)] first. *)
Ltac halve :=
  unfold Qdiv in *; change (/ 2) with (1 # 2) in *.

(** Closes a comparison or equation between concrete rationals. *)
Ltac by_computation :=
  vm_compute; repeat split; try reflexivity; try discriminate.

(** The functions of the JavaScript [Math] object that the program calls
    and that are not rational operations.  [Math_random k] is the value
    returned by the [k]-th call of [Math.random()]. *)
Class MathLib := {
  Math_hypot : Q -> Q -> Q;
  Math_sqrt : Q -> Q;
  Math_random : nat -> Q
}.

Definition Math_floor (a : Q) : Q := inject_Z (Qfloor a).
Definition Math_max (a b : Q) : Q := Qmax a b.
Definition Math_min (a b : Q) : Q := Qmin a b.

(** Computations that call [Math.random()]: the number of calls made so far
    is threaded through. *)
Definition Rand (A : Type) : Type := nat -> A * nat.

Definition ret {A} (a : A) : Rand A := fun k => (a, k).
Definition bind {A B} (m : Rand A) (f : A -> Rand B) : Rand B :=
  fun k => let (a, k') := m k in f a k'.

Notation "v <- m ;; f" := (bind m (fun v => f))
  (at level 61, m at next level, right associativity).

(** ** Configuration *)

Record Config := {
  particleBaseCount : nat;
  particleCountLargeScreenFactor : Q;
  smallScreenWidthThreshold : Q;
  particleRadiusMin : Q;
  particleRadiusMax : Q;
  particleVelocityFactor : Q;
  mouseInteractionRadius : Q;
  particlePushFriction : Q;
  connectionMaxDistance : Q;
  connectionMaxPeers : nat;
  connectionOpacityFactor : Q
}.

(** The [config] object of the source. *)
Definition config : Config := {|
  particleBaseCount := 100;
  particleCountLargeScreenFactor := 45 # 10;
  smallScreenWidthThreshold := 600;
  particleRadiusMin := 1;
  particleRadiusMax := 11;
  particleVelocityFactor := 1;
  mouseInteractionRadius := 200;
  particlePushFriction := 55 # 100;
  connectionMaxDistance := 100;
  connectionMaxPeers := 4;
  connectionOpacityFactor := 5 # 10
|}.

(** ** Particle *)

Record Particle := mkParticle {
  radius : Q;
  x : Q;
  y : Q;
  vx : Q;
  vy : Q;
  pushX : Q;
  pushY : Q;
  friction : Q
}.

Definition set_x (v : Q) (p : Particle) : Particle :=
  mkParticle (radius p) v (y p) (vx p) (vy p) (pushX p) (pushY p) (friction p).
Definition set_y (v : Q) (p : Particle) : Particle :=
  mkParticle (radius p) (x p) v (vx p) (vy p) (pushX p) (pushY p) (friction p).
Definition set_vx (v : Q) (p : Particle) : Particle :=
  mkParticle (radius p) (x p) (y p) v (vy p) (pushX p) (pushY p) (friction p).
Definition set_vy (v : Q) (p : Particle) : Particle :=
  mkParticle (radius p) (x p) (y p) (vx p) v (pushX p) (pushY p) (friction p).
Definition set_pushX (v : Q) (p : Particle) : Particle :=
  mkParticle (radius p) (x p) (y p) (vx p) (vy p) v (pushY p) (friction p).
Definition set_pushY (v : Q) (p : Particle) : Particle :=
  mkParticle (radius p) (x p) (y p) (vx p) (vy p) (pushX p) v (friction p).

(** The X half of the boundary collision checks of [applyPhysics]. *)
Definition collideX (canvasWidth : Q) (p : Particle) : Particle :=
  if Qltb (x p) (radius p) then
    let p := set_x (radius p) p in
    let p := set_vx (vx p * -(1)) p in
    set_pushX (pushX p * -(5 # 10)) p
  else if Qgtb (x p) (canvasWidth - radius p) then
    let p := set_x (canvasWidth - radius p) p in
    let p := set_vx (vx p * -(1)) p in
    set_pushX (pushX p * -(5 # 10)) p
  else p.

(** The Y half of the boundary collision checks of [applyPhysics]. *)
Definition collideY (canvasHeight : Q) (p : Particle) : Particle :=
  if Qltb (y p) (radius p) then
    let p := set_y (radius p) p in
    let p := set_vy (vy p * -(1)) p in
    set_pushY (pushY p * -(5 # 10)) p
  else if Qgtb (y p) (canvasHeight - radius p) then
    let p := set_y (canvasHeight - radius p) p in
    let p := set_vy (vy p * -(1)) p in
    set_pushY (pushY p * -(5 # 10)) p
  else p.

(** [Particle.applyPhysics(canvasWidth, canvasHeight)]: the particle after
    the call. *)
Definition applyPhysics (canvasWidth canvasHeight : Q) (p : Particle) : Particle :=
  (* Apply friction to push force *)
  let p := set_pushX (pushX p * friction p) p in
  let p := set_pushY (pushY p * friction p) p in
  (* Update position *)
  let p := set_x (x p + (pushX p + vx p)) p in
  let p := set_y (y p + (pushY p + vy p)) p in
  (* Boundary collision checks *)
  let p := collideX canvasWidth p in
  collideY canvasHeight p.

(** The particle just before the boundary checks: push decayed, position
    integrated.  Used to state intermediate facts. *)
Definition integrated (p : Particle) : Particle :=
  mkParticle (radius p)
    (x p + (pushX p * friction p + vx p))
    (y p + (pushY p * friction p + vy p))
    (vx p) (vy p) (pushX p * friction p) (pushY p * friction p) (friction p).

(** ** Particle system *)

(** [this.mouse]: [None] is the source's [undefined]. *)
Module Mouse.
Record t := mk {
  x : option Q;
  y : option Q;
  radius : Q
}.
End Mouse.

(** The fields of [ParticleSystem] that the simulation reads and writes
    (the canvas element and its drawing context are outside). *)
Record ParticleSystem := mkSystem {
  particles : list Particle;
  canvasWidth : Q;
  canvasHeight : Q;
  mouse : Mouse.t
}.

Definition set_particles (ps : list Particle) (s : ParticleSystem) : ParticleSystem :=
  mkSystem ps (canvasWidth s) (canvasHeight s) (mouse s).
Definition set_mouse (m : Mouse.t) (s : ParticleSystem) : ParticleSystem :=
  mkSystem (particles s) (canvasWidth s) (canvasHeight s) m.

(** One stroked line of [drawConnections]: the block from [ctx.save()] to
    [ctx.restore()], with [globalAlpha], the [moveTo] point and the [lineTo]
    point.  [src] and [dst] record the loop indices [i] and [j] at which the
    block ran. *)
Record Edge := mkEdge {
  src : nat;
  dst : nat;
  x1 : Q;
  y1 : Q;
  x2 : Q;
  y2 : Q;
  globalAlpha : Q
}.

Section Program.

Context {M : MathLib}.

(** The [config] object in scope of every function of the source. *)
Variable cfg : Config.

(** *** Helper functions *)

Definition random (min max : Q) : Rand Q :=
  fun k => (Math_random k * (max - min) + min, S k).

Definition randomInt (min max : Q) : Rand Q :=
  r <- random min max ;;
  ret (Math_floor r).

(** *** [new Particle(canvasWidth, canvasHeight)] *)

Definition newParticle (canvasWidth canvasHeight : Q) : Rand Particle :=
  radius <- randomInt (particleRadiusMin cfg) (particleRadiusMax cfg) ;;
  x <- random radius (canvasWidth - radius) ;;
  y <- random radius (canvasHeight - radius) ;;
  rx <- random (-(5 # 10)) (5 # 10) ;;
  ry <- random (-(5 # 10)) (5 # 10) ;;
  ret (mkParticle radius x y
         (rx * particleVelocityFactor cfg) (ry * particleVelocityFactor cfg)
         0 0 (particlePushFriction cfg)).

(** *** [createParticles] *)

(** [count] of [createParticles]: a number, not rounded. *)
Definition particleCount (canvasWidth : Q) : Q :=
  if Qgtb canvasWidth (smallScreenWidthThreshold cfg)
  then inject_Z (Z.of_nat (particleBaseCount cfg)) * particleCountLargeScreenFactor cfg
  else inject_Z (Z.of_nat (particleBaseCount cfg)).

(** [for (let i = 0; i < count; i++) this.particles.push(new Particle(..))]
    from loop counter [i] and array [ps] on; [None] when [fuel] iterations
    did not reach the exit test. *)
Fixpoint createLoop (fuel : nat) (canvasWidth canvasHeight count : Q)
    (i : nat) (ps : list Particle) : Rand (option (list Particle)) :=
  match fuel with
  | O => ret None
  | S fuel' =>
      if Qltb (inject_Z (Z.of_nat i)) count then
        p <- newParticle canvasWidth canvasHeight ;;
        createLoop fuel' canvasWidth canvasHeight count (S i) (ps ++ [p])
      else ret (Some ps)
  end.

Definition createParticles (fuel : nat) (s : ParticleSystem)
    : Rand (option ParticleSystem) :=
  let count := particleCount (canvasWidth s) in
  r <- createLoop fuel (canvasWidth s) (canvasHeight s) count 0 [] ;;
  match r with
  | None => ret None
  | Some ps =>
      (* Initialize mouse position off-screen until first move *)
      let m := Mouse.mk (Some (- mouseInteractionRadius cfg * 2))
                        (Some (- mouseInteractionRadius cfg * 2))
                        (Mouse.radius (mouse s)) in
      ret (Some (set_mouse m (set_particles ps s)))
  end.

(** *** [applyMouseInteraction] *)

Definition forceMagnitude (distance mouseRadius : Q) : Q :=
  1 - distance / mouseRadius.

(** The body of the [for (const particle of this.particles)] loop, with
    the mouse at [(mx, my)]. *)
Definition pushFromMouse (mx my mouseRadius : Q) (particle : Particle) : Particle :=
  let dx := x particle - mx in
  let dy := y particle - my in
  let distance := Math_hypot dx dy in
  if Qltb distance mouseRadius && Qgtb distance (1 # 10) then
    let forceDirectionX := dx / distance in
    let forceDirectionY := dy / distance in
    let particle :=
      set_pushX (pushX particle
                 + forceDirectionX * forceMagnitude distance mouseRadius * 5) particle in
    set_pushY (pushY particle
               + forceDirectionY * forceMagnitude distance mouseRadius * 5) particle
  else particle.

Definition applyMouseInteraction (s : ParticleSystem) : ParticleSystem :=
  match Mouse.x (mouse s) with
  | None => s
  | Some mx =>
      match Mouse.y (mouse s) with
      | None => s
      | Some my =>
          set_particles
            (map (pushFromMouse mx my (Mouse.radius (mouse s))) (particles s)) s
      end
  end.

(** *** [drawConnections] *)

(** The inner loop [for (let j = i + 1; j < this.particles.length; j++)]
    from counter [j] on, [from_j] being the particles at indices [j],
    [j+1], ...; [connections] is the running count for [p1]. *)
Fixpoint connectPeers (p1 : Particle) (i j : nat) (from_j : list Particle)
    (connections : nat) : list Edge :=
  match from_j with
  | [] => []
  | p2 :: later =>
      if (connectionMaxPeers cfg <=? connections)%nat then [] (* break *)
      else
        let maxDistSq := connectionMaxDistance cfg * connectionMaxDistance cfg in
        let dx := x p1 - x p2 in
        let dy := y p1 - y p2 in
        let distSq := dx * dx + dy * dy in
        if Qltb distSq maxDistSq then
          let distance := Math_sqrt distSq in
          let opacity :=
            (1 - distance / connectionMaxDistance cfg) * connectionOpacityFactor cfg in
          mkEdge i j (x p1) (y p1) (x p2) (y p2) (Math_max 0 (Math_min opacity 1))
            :: connectPeers p1 i (S j) later (S connections)
        else connectPeers p1 i (S j) later connections
  end.

(** The outer loop [for (let i = 0; i < this.particles.length; i++)] from
    counter [i] on, [from_i] being the particles at indices [i], [i+1],
    ... *)
Fixpoint connectFrom (i : nat) (from_i : list Particle) : list Edge :=
  match from_i with
  | [] => []
  | p1 :: later => connectPeers p1 i (S i) later 0 ++ connectFrom (S i) later
  end.

(** [drawConnections] on [this.particles]: the lines stroked, in order. *)
Definition drawConnections (ps : list Particle) : list Edge :=
  connectFrom 0 ps.

(** *** The force field as the specification words it *)

(** The pointer position of the specification: absent unless both
    coordinates are there. *)
Definition pointerOf (m : Mouse.t) : option (Q * Q) :=
  match Mouse.x m, Mouse.y m with
  | Some px, Some py => Some (px, py)
  | _, _ => None
  end.

(** Follows the specification (4.2), not the source: no effect when the
    pointer is absent, when [d >= influenceRadius] or when [d <= 0.1];
    otherwise add [u * m * K] with [u = (Q - P) / d] and
    [m = 1 - d / influenceRadius]. *)
Definition forceField_spec (P : option (Q * Q)) (influenceRadius K : Q)
    (q : Particle) : Particle :=
  match P with
  | None => q
  | Some (px, py) =>
      let d := Math_hypot (x q - px) (y q - py) in
      if Qle_bool influenceRadius d || Qle_bool d (1 # 10) then q
      else
        let ux := (x q - px) / d in
        let uy := (y q - py) / d in
        let m := 1 - d / influenceRadius in
        mkParticle (radius q) (x q) (y q) (vx q) (vy q)
          (pushX q + ux * m * K) (pushY q + uy * m * K) (friction q)
  end.

End Program.

(** ** Drawing requests and the frame driver *)

(** The disc filled by [Particle.draw]: [ctx.arc(x, y, radius, 0,
    Math.PI * 2)] followed by [ctx.fill()], a full turn around the
    centre. *)
Record Circle := mkCircle {
  centerX : Q;
  centerY : Q;
  circleRadius : Q
}.

(** [Particle.draw(ctx)]. *)
Definition draw (p : Particle) : Circle :=
  mkCircle (x p) (y p) (radius p).

(** What one call of [animate] puts on the cleared canvas, in drawing
    order: the connection lines, then the particle discs. *)
Record Frame := mkFrame {
  strokes : list Edge;
  fills : list Circle
}.

(** The linear gradient built by [applyGradientStyle]: the two points given
    to [createLinearGradient] and the colour stops in the order added. *)
Record Gradient (Color : Type) := mkGradient {
  startX : Q;
  startY : Q;
  endX : Q;
  endY : Q;
  colorStops : list (Q * Color)
}.

Arguments mkGradient {Color}.
Arguments startX {Color}.
Arguments startY {Color}.
Arguments endX {Color}.
Arguments endY {Color}.
Arguments colorStops {Color}.

Section Driver.

Context {M : MathLib}.
Variable cfg : Config.

(** [handleMouseMove(event)] with [event.clientX] and [event.clientY]. *)
Definition handleMouseMove (clientX clientY : Q) (s : ParticleSystem)
    : ParticleSystem :=
  set_mouse (Mouse.mk (Some clientX) (Some clientY) (Mouse.radius (mouse s))) s.

(** The [forEach] of [applyGradientStyle] from [index] on: one
    [addColorStop(Math.min(index * step, 1.0), color)] per colour. *)
Fixpoint addColorStops {Color} (step : Q) (index : nat) (colors : list Color)
    : list (Q * Color) :=
  match colors with
  | [] => []
  | color :: rest =>
      (Math_min (inject_Z (Z.of_nat index) * step) 1, color)
        :: addColorStops step (S index) rest
  end.

(** [applyGradientStyle] for the colour list [gradientColors] of the
    configuration.  With exactly one colour [step] is [1 / 0], the first
    offset [0 * step] is not a number and [addColorStop] throws: [None]. *)
Definition applyGradientStyle {Color} (gradientColors : list Color)
    (s : ParticleSystem) : option (Gradient Color) :=
  if (length gradientColors =? 1)%nat then None
  else
    let step := 1 / (inject_Z (Z.of_nat (length gradientColors)) - 1) in
    Some (mkGradient 0 0 (canvasWidth s) (canvasHeight s)
            (addColorStops step 0 gradientColors)).

(** [handleResize] with [window.innerWidth] and [window.innerHeight]: the
    gradient installed as stroke and fill style, and the system with its
    new particles. *)
Definition handleResize {Color} (gradientColors : list Color)
    (innerWidth innerHeight : Q) (fuel : nat) (s : ParticleSystem)
    : Rand (option (Gradient Color * ParticleSystem)) :=
  let s := mkSystem (particles s) innerWidth innerHeight (mouse s) in
  match applyGradientStyle gradientColors s with
  | None => ret None
  | Some gradient =>
      r <- createParticles cfg fuel s ;;
      match r with
      | None => ret None
      | Some s' => ret (Some (gradient, s'))
      end
  end.

(** One call of [animate], up to [requestAnimationFrame]: the system after
    the call and what was drawn. *)
Definition animate (s : ParticleSystem) : ParticleSystem * Frame :=
  (* 2. Apply Interactions *)
  let s := applyMouseInteraction s in
  (* 3. Update Particles *)
  let s := set_particles
             (map (applyPhysics (canvasWidth s) (canvasHeight s)) (particles s)) s in
  (* 4. Draw Connections *)
  let lines := drawConnections cfg (particles s) in
  (* 5. Draw Particles *)
  let discs := map draw (particles s) in
  (s, mkFrame lines discs).

(** The system after [n] animation frames with no event in between. *)
Fixpoint frames (n : nat) (s : ParticleSystem) : ParticleSystem :=
  match n with
  | O => s
  | S n' => frames n' (fst (animate s))
  end.

End Driver.

(** ** Measures used in the statements *)

Definition distSq (p q : Particle) : Q :=
  (x p - x q) * (x p - x q) + (y p - y q) * (y p - y q).

(** [p] and [q] are at Euclidean distance less than [D]. *)
Definition closer (D : Q) (p q : Particle) : Prop :=
  0 <= D /\ distSq p q < D * D.

(** The edges whose lower end is the particle at index [i]. *)
Definition outgoing (i : nat) (es : list Edge) : list Edge :=
  filter (fun e => (src e =? i)%nat) es.

(** The edges that touch the particle at index [i]. *)
Definition incident (i : nat) (es : list Edge) : list Edge :=
  filter (fun e => (src e =? i)%nat || (dst e =? i)%nat) es.

Definition ends (e : Edge) : nat * nat := (src e, dst e).

(** Order of emission: [i] ascending, then [j] ascending. *)
Definition emittedBefore (a b : nat * nat) : Prop :=
  (fst a < fst b \/ (fst a = fst b /\ snd a < snd b))%nat.

Definition position (p : Particle) : Q * Q := (x p, y p).

(** [p] lies within the canvas of extent [W] x [H], its disc included. *)
Definition inCanvas (W H : Q) (p : Particle) : Prop :=
  (radius p <= x p /\ x p <= W - radius p) /\
  (radius p <= y p /\ y p <= H - radius p).

(** [Math.random] returns values in [0, 1). *)
Definition randomInUnit (M : MathLib) : Prop :=
  forall k, 0 <= Math_random k /\ Math_random k < 1.

(** [Math.hypot] is at least the magnitude of each argument. *)
Definition hypotDominates (M : MathLib) : Prop :=
  forall dx dy, Qabs dx <= Math_hypot dx dy /\ Qabs dy <= Math_hypot dx dy.

(** The indices, counted from [j], of the particles of [from_j] whose
    squared distance to [p1] is below [D * D]. *)
Fixpoint closeIndices (D : Q) (p1 : Particle) (j : nat) (from_j : list Particle)
    : list nat :=
  match from_j with
  | [] => []
  | p2 :: later =>
      if Qltb (distSq p1 p2) (D * D)
      then j :: closeIndices D p1 (S j) later
      else closeIndices D p1 (S j) later
  end.

(** The push of [a] is no larger than the push of [c], an earlier state of
    the same particle, on either axis, when the friction coefficient lies
    between 0 and 1. *)
Definition pushNotGrown (a c : Particle) : Prop :=
  friction a = friction c /\
  (0 <= friction c -> friction c <= 1 ->
   Qabs (pushX a) <= Qabs (pushX c) /\ Qabs (pushY a) <= Qabs (pushY c)).

(** What no frame changes of a particle. *)
Definition sameBody (a c : Particle) : Prop :=
  radius a = radius c /\ friction a = friction c /\
  Qabs (vx a) == Qabs (vx c) /\ Qabs (vy a) == Qabs (vy c).

(** The invariant behind the canvas bound. *)
Definition smallInCanvas (W H : Q) (s : ParticleSystem) : Prop :=
  canvasWidth s = W /\ canvasHeight s = H /\
  Forall (fun p => (radius p < W / 2 /\ radius p < H / 2) /\ inCanvas W H p)
         (particles s).

(** The pointer is at [(mx, my)], at least its radius to the left of the
    canvas of extent [W] x [H], whose particles have radii between 0 and
    half of each extent and centres at least a radius right of the left
    edge. *)
Definition pointerLeftOfCanvas (M : MathLib) (W H : Q) (s : ParticleSystem) : Prop :=
  hypotDominates M /\
  (exists mx my, pointerOf (mouse s) = Some (mx, my) /\
                 mx + Mouse.radius (mouse s) <= 0) /\
  canvasWidth s = W /\ canvasHeight s = H /\
  Forall (fun p => 0 <= radius p /\ radius p < W / 2 /\ radius p < H / 2 /\
                   radius p <= x p) (particles s).

(** What the constructor gives a particle made for the canvas [W] x [H]
    when radii are drawn from the whole numbers [a], ..., [b - 1]. *)
Definition freshParticle (cfg : Config) (a b : Z) (W H : Q) (p : Particle) : Prop :=
  (exists z, radius p = inject_Z z /\ (a <= z <= b - 1)%Z) /\
  inCanvas W H p /\
  pushX p = 0 /\ pushY p = 0 /\
  friction p = particlePushFriction cfg /\
  Qabs (vx p) <= (1 # 2) * Qabs (particleVelocityFactor cfg) /\
  Qabs (vy p) <= (1 # 2) * Qabs (particleVelocityFactor cfg).

(** The particle has no push and lies within the canvas. *)
Definition atRestInCanvas (W H : Q) (p : Particle) : Prop :=
  pushX p == 0 /\ pushY p == 0 /\ inCanvas W H p.

(** [p] moved by [(a, b)]. *)
Definition translate (a b : Q) (p : Particle) : Particle :=
  set_y (y p + b) (set_x (x p + a) p).

(** The disc [c] lies wholly within the canvas of extent [W] x [H]. *)
Definition discInCanvas (W H : Q) (c : Circle) : Prop :=
  0 <= centerX c - circleRadius c /\ centerX c + circleRadius c <= W /\
  0 <= centerY c - circleRadius c /\ centerY c + circleRadius c <= H.

(** ** Sample data *)

(** A stand-in for [Math.sqrt], exact on the squares of integers. *)
Definition sqrt_int (a : Q) : Q := inject_Z (Z.sqrt (Qfloor a)).

Definition sampleMath : MathLib := {|
  Math_hypot := fun dx dy => sqrt_int (dx * dx + dy * dy);
  Math_sqrt := sqrt_int;
  Math_random := fun k => Z.of_nat ((k * 37) mod 100) # 100
|}.

Definition sampleParticle : Particle :=
  mkParticle 3 (-50) 9000 (-7) 12 40 (-25) (55 # 100).

Definition bounceParticle : Particle :=
  mkParticle 5 (5 - 1) 300 (-2) (3 # 10) 0 0 (55 # 100).

(** A particle of radius 1 at rest at [(a, b)]. *)
Definition restingAt (a b : Q) : Particle :=
  mkParticle 1 a b 0 0 0 0 (particlePushFriction config).

(** Five particles on the line [y = 0], ten apart. *)
Definition linePs : list Particle :=
  [restingAt 0 0; restingAt 10 0; restingAt 20 0; restingAt 30 0; restingAt 40 0].

Definition threePs : list Particle :=
  [restingAt 0 0; restingAt 10 0; restingAt 200 0].

(** A freshly constructed system on an 800 x 600 canvas, before
    [handleResize] has created particles. *)
Definition wideSystem : ParticleSystem :=
  mkSystem [] 800 600 (Mouse.mk None None (mouseInteractionRadius config)).

(** A system whose pointer is at the origin: the first particle is at
    distance 100, the second in the dead zone, the third out of reach. *)
Definition sampleSystem : ParticleSystem :=
  mkSystem [restingAt 60 80; restingAt 0 (1 # 20); restingAt 500 500] 800 600
           (Mouse.mk (Some 0) (Some 0) (mouseInteractionRadius config)).

(** A stand-in for [Math.hypot] rounded up to the next whole number, exact
    on whole-number distances. *)
Definition hypot_up (dx dy : Q) : Q :=
  inject_Z (Z.sqrt_up (Qceiling (dx * dx + dy * dy))).

Definition upMath : MathLib := {|
  Math_hypot := hypot_up;
  Math_sqrt := sqrt_int;
  Math_random := fun k => Z.of_nat ((k * 37) mod 100) # 100
|}.

(** A system with an absent pointer and two particles carrying push. *)
Definition pushedSystem : ParticleSystem :=
  mkSystem [mkParticle 2 100 100 (3 # 10) (-(2 # 10)) 8 (-6) (55 # 100);
            mkParticle 4 5 590 (-(1 # 2)) (1 # 2) (-3) 9 (55 # 100)]
           800 600 (Mouse.mk None None (mouseInteractionRadius config)).

(** [pushedSystem] with the pointer where [createParticles] puts it. *)
Definition idleSystem : ParticleSystem :=
  set_mouse (Mouse.mk (Some (- mouseInteractionRadius config * 2))
                      (Some (- mouseInteractionRadius config * 2))
                      (mouseInteractionRadius config)) pushedSystem.

(** A particle one unit right of the left contact line, moving left. *)
Definition wallParticle : Particle :=
  mkParticle 5 6 300 (-2) 3 0 0 (55 # 100).

(** [gradientColors] of the source's configuration. *)
Module Colors.
Import String.
Definition gradientColors : list string :=
  ["#d4362b"; "#f89334"; "#e4e706"; "#00c975"; "#1091e7"]%string.
End Colors.

(** The source's configuration with the connections switched off. *)
Definition noPeersConfig : Config := {|
  particleBaseCount := 100;
  particleCountLargeScreenFactor := 45 # 10;
  smallScreenWidthThreshold := 600;
  particleRadiusMin := 1;
  particleRadiusMax := 11;
  particleVelocityFactor := 1;
  mouseInteractionRadius := 200;
  particlePushFriction := 55 # 100;
  connectionMaxDistance := 100;
  connectionMaxPeers := 0;
  connectionOpacityFactor := 5 # 10
|}.

(** * Part II: properties *)

(** ** Comparisons *)

Lemma Qltb_true a b : Qltb a b = true <-> a < b.
Proof.
  unfold Qltb. rewrite negb_true_iff.
  split; intro H.
  - apply Qnot_le_lt. intro L. apply Qle_bool_iff in L. congruence.
  - destruct (Qle_bool b a) eqn:E; [|reflexivity].
    apply Qle_bool_iff in E. exfalso. apply (Qlt_not_le _ _ H E).
Qed.

Lemma Qltb_false a b : Qltb a b = false <-> b <= a.
Proof.
  unfold Qltb. rewrite negb_false_iff. apply Qle_bool_iff.
Qed.

Lemma Qltb_spec a b : reflect (a < b) (Qltb a b).
Proof.
  destruct (Qltb a b) eqn:E; constructor.
  - now apply Qltb_true.
  - apply Qltb_false in E. now apply Qle_not_lt.
Qed.

(** ** Theorems on the physics step *)

Lemma collideX_frame W p :
  radius (collideX W p) = radius p /\ y (collideX W p) = y p /\
  vy (collideX W p) = vy p /\ pushY (collideX W p) = pushY p /\
  friction (collideX W p) = friction p.
Proof.
  unfold collideX.
  destruct (Qltb (x p) (radius p)); [cbn; tauto|].
  destruct (Qgtb (x p) (W - radius p)); cbn; tauto.
Qed.

Lemma collideY_frame H p :
  radius (collideY H p) = radius p /\ x (collideY H p) = x p /\
  vx (collideY H p) = vx p /\ pushX (collideY H p) = pushX p /\
  friction (collideY H p) = friction p.
Proof.
  unfold collideY.
  destruct (Qltb (y p) (radius p)); [cbn; tauto|].
  destruct (Qgtb (y p) (H - radius p)); cbn; tauto.
Qed.

Lemma collideX_bounds W p :
  radius p < W / 2 ->
  radius p <= x (collideX W p) <= W - radius p.
Proof.
  intro Hr. halve. unfold collideX, Qgtb.
  destruct (Qltb_spec (x p) (radius p)) as [L|L]; cbn.
  - lra.
  - destruct (Qltb_spec (W - radius p) (x p)) as [G|G]; cbn; lra.
Qed.

Lemma collideY_bounds H p :
  radius p < H / 2 ->
  radius p <= y (collideY H p) <= H - radius p.
Proof.
  intro Hr. halve. unfold collideY, Qgtb.
  destruct (Qltb_spec (y p) (radius p)) as [L|L]; cbn.
  - lra.
  - destruct (Qltb_spec (H - radius p) (y p)) as [G|G]; cbn; lra.
Qed.

Lemma applyPhysics_unfold W H p :
  applyPhysics W H p = collideY H (collideX W (integrated p)).
Proof. reflexivity. Qed.

Lemma applyPhysics_radius W H p : radius (applyPhysics W H p) = radius p.
Proof.
  rewrite applyPhysics_unfold.
  destruct (collideY_frame H (collideX W (integrated p))) as [-> _].
  destruct (collideX_frame W (integrated p)) as [-> _].
  reflexivity.
Qed.

(** C1: when the radius is strictly less than half of each canvas extent,
    the position after [applyPhysics] lies in
    [radius, W - radius] x [radius, H - radius], whatever the position,
    velocity and push accumulator were before the step. *)
Theorem applyPhysics_in_bounds (W H : Q) (p : Particle) :
  radius p < W / 2 -> radius p < H / 2 ->
  let p' := applyPhysics W H p in
  (radius p' <= x p' /\ x p' <= W - radius p') /\
  (radius p' <= y p' /\ y p' <= H - radius p').
Proof.
  intros HW HH p'. subst p'.
  rewrite applyPhysics_radius, applyPhysics_unfold.
  set (q := integrated p).
  destruct (collideY_frame H (collideX W q)) as (_ & -> & _).
  destruct (collideX_frame W q) as (Hr & _).
  split.
  - apply (collideX_bounds W q). exact HW.
  - change (radius p) with (radius q). rewrite <- Hr.
    apply collideY_bounds. rewrite Hr. exact HH.
Qed.

Lemma applyPhysics_in_bounds_witness :
  let p' := applyPhysics 800 600 sampleParticle in
  (radius p' <= x p' /\ x p' <= 800 - radius p') /\
  (radius p' <= y p' /\ y p' <= 600 - radius p').
Proof.
  apply (applyPhysics_in_bounds 800 600 sampleParticle); reflexivity.
Defined.

(** *** Push decay *)

Lemma Qabs_scale (a f : Q) : 0 <= f -> f <= 1 -> Qabs (a * f) <= Qabs a.
Proof.
  intros H0 H1.
  rewrite Qabs_Qmult, (Qabs_pos f) by exact H0.
  pose proof (Qabs_nonneg a) as Ha.
  nra.
Qed.

Lemma Qabs_bounce (a : Q) : Qabs (a * -(5 # 10)) <= Qabs a.
Proof.
  rewrite Qabs_Qmult.
  assert (E : Qabs (-(5 # 10)) == 5 # 10) by reflexivity.
  rewrite E.
  pose proof (Qabs_nonneg a) as Ha.
  lra.
Qed.

Lemma collideX_push W p : Qabs (pushX (collideX W p)) <= Qabs (pushX p).
Proof.
  unfold collideX.
  destruct (Qltb (x p) (radius p)); cbn; [apply Qabs_bounce|].
  destruct (Qgtb (x p) (W - radius p)); cbn; [apply Qabs_bounce|].
  apply Qle_refl.
Qed.

Lemma collideY_push H p : Qabs (pushY (collideY H p)) <= Qabs (pushY p).
Proof.
  unfold collideY.
  destruct (Qltb (y p) (radius p)); cbn; [apply Qabs_bounce|].
  destruct (Qgtb (y p) (H - radius p)); cbn; [apply Qabs_bounce|].
  apply Qle_refl.
Qed.

(** C2: with a friction coefficient strictly between 0 and 1, one
    [applyPhysics] step never increases the magnitude of either component of
    the push accumulator, whether or not a wall is hit during the step. *)
Theorem applyPhysics_push_nonincreasing (W H : Q) (p : Particle) :
  0 < friction p -> friction p < 1 ->
  Qabs (pushX (applyPhysics W H p)) <= Qabs (pushX p) /\
  Qabs (pushY (applyPhysics W H p)) <= Qabs (pushY p).
Proof.
  intros F0 F1. rewrite applyPhysics_unfold.
  set (q := integrated p).
  destruct (collideY_frame H (collideX W q)) as (_ & _ & _ & -> & _).
  split.
  - apply Qle_trans with (Qabs (pushX q)); [apply collideX_push|].
    apply Qabs_scale; lra.
  - apply Qle_trans with (Qabs (pushY (collideX W q))); [apply collideY_push|].
    destruct (collideX_frame W q) as (_ & _ & _ & -> & _).
    apply Qabs_scale; lra.
Qed.

Lemma applyPhysics_push_nonincreasing_witness :
  Qabs (pushX (applyPhysics 800 600 sampleParticle)) <= Qabs (pushX sampleParticle) /\
  Qabs (pushY (applyPhysics 800 600 sampleParticle)) <= Qabs (pushY sampleParticle).
Proof.
  apply (applyPhysics_push_nonincreasing 800 600 sampleParticle); reflexivity.
Defined.

(** *** Boundary bounce *)

(** C7: a particle one unit left of the left contact line ([x = radius - 1])
    moving left with [vx = -2] and no push is put back on the line
    ([x = radius]) with its velocity reversed ([vx = 2]).  The Y axis plays
    no part: the result holds for every [y], so in particular for those that
    touch no horizontal wall. *)
Theorem applyPhysics_left_bounce (W H : Q) (p : Particle) :
  x p == radius p - 1 -> vx p == -2 -> pushX p == 0 -> pushY p == 0 ->
  x (applyPhysics W H p) = radius p /\ vx (applyPhysics W H p) == 2.
Proof.
  intros Hx Hv Hpx _. rewrite applyPhysics_unfold.
  set (q := integrated p).
  destruct (collideY_frame H (collideX W q)) as (_ & -> & -> & _).
  assert (L : x q < radius q).
  { subst q; cbn. rewrite Hx, Hv, Hpx. lra. }
  unfold collideX. apply Qltb_true in L. rewrite L. cbn.
  split; [reflexivity|]. rewrite Hv. reflexivity.
Qed.

Lemma applyPhysics_left_bounce_witness :
  x (applyPhysics 800 600 bounceParticle) = radius bounceParticle /\
  vx (applyPhysics 800 600 bounceParticle) == 2.
Proof.
  apply (applyPhysics_left_bounce 800 600 bounceParticle); reflexivity.
Defined.

(** On the sample bounce particle the step computes to exactly these
    values, and the Y axis is left alone. *)
Example bounce_computed :
  let p' := applyPhysics 800 600 bounceParticle in
  x p' = 5 /\ vx p' = 2 /\ vy p' = 3 # 10.
Proof. vm_compute. repeat split. Qed.

(** ** Pointer force field *)

Section ForceField.

Context {M : MathLib}.

Lemma pushFromMouse_spec mx my R q :
  pushFromMouse mx my R q = forceField_spec (Some (mx, my)) R 5 q.
Proof.
  unfold pushFromMouse, forceField_spec, forceMagnitude, Qgtb, Qltb.
  destruct (Qle_bool R (Math_hypot (x q - mx) (y q - my)));
    destruct (Qle_bool (Math_hypot (x q - mx) (y q - my)) (1 # 10));
    reflexivity.
Qed.

Lemma applyMouseInteraction_map s :
  particles (applyMouseInteraction s) =
  match pointerOf (mouse s) with
  | Some (px, py) => map (pushFromMouse px py (Mouse.radius (mouse s))) (particles s)
  | None => particles s
  end.
Proof.
  unfold applyMouseInteraction, pointerOf.
  destruct (Mouse.x (mouse s)); [|reflexivity].
  destruct (Mouse.y (mouse s)); reflexivity.
Qed.

(** Outside the dead zone and at half the influence radius the loop body
    is in its active branch. *)
Lemma half_radius_active (d R : Q) :
  1 # 5 < R -> d == R / 2 ->
  Qltb d R && Qgtb d (1 # 10) = true.
Proof.
  intros HR Hd. halve. apply andb_true_intro. unfold Qgtb.
  split; apply Qltb_true; lra.
Qed.

Lemma half_radius_magnitude (d R : Q) :
  1 # 5 < R -> d == R / 2 -> forceMagnitude d R * 5 == (5 # 10) * 5.
Proof.
  intros HR Hd. unfold forceMagnitude. rewrite Hd. field. lra.
Qed.

Lemma pushFromMouse_half mx my R q :
  1 # 5 < R ->
  Math_hypot (x q - mx) (y q - my) == R / 2 ->
  let d := Math_hypot (x q - mx) (y q - my) in
  let q' := pushFromMouse mx my R q in
  pushX q' == pushX q + (x q - mx) / d * ((5 # 10) * 5) /\
  pushY q' == pushY q + (y q - my) / d * ((5 # 10) * 5).
Proof.
  intros HR Hd d q'. subst q'. unfold pushFromMouse. fold d.
  rewrite (half_radius_active d R HR Hd). cbn.
  pose proof (half_radius_magnitude d R HR Hd) as E.
  split; rewrite <- E; ring.
Qed.

(** C3: [applyMouseInteraction] is the force field of the specification
    applied to each particle with [K = 5]: nothing changes when the
    pointer is absent, when [d >= influenceRadius] or when [d <= 0.1], and
    otherwise [((Q - P) / d) * (1 - d / influenceRadius) * K] is added
    componentwise to the push accumulator.  In particular, for an
    influence radius beyond twice the dead zone (the configured one is
    200), a particle at distance exactly half the influence radius gets a
    contribution of magnitude [0.5 * K] times its unit direction. *)
Theorem applyMouseInteraction_refines_spec (s : ParticleSystem) :
  particles (applyMouseInteraction s) =
    map (forceField_spec (pointerOf (mouse s)) (Mouse.radius (mouse s)) 5)
        (particles s)
  /\
  (forall px py i q,
      pointerOf (mouse s) = Some (px, py) ->
      nth_error (particles s) i = Some q ->
      1 # 5 < Mouse.radius (mouse s) ->
      Math_hypot (x q - px) (y q - py) == Mouse.radius (mouse s) / 2 ->
      let d := Math_hypot (x q - px) (y q - py) in
      forceMagnitude d (Mouse.radius (mouse s)) * 5 == (5 # 10) * 5 /\
      exists q',
        nth_error (particles (applyMouseInteraction s)) i = Some q' /\
        pushX q' == pushX q + (x q - px) / d * ((5 # 10) * 5) /\
        pushY q' == pushY q + (y q - py) / d * ((5 # 10) * 5)).
Proof.
  split.
  - rewrite applyMouseInteraction_map.
    destruct (pointerOf (mouse s)) as [[px py]|].
    + apply map_ext. intro q. apply pushFromMouse_spec.
    + symmetry. rewrite <- (map_id (particles s)) at 2.
      apply map_ext. reflexivity.
  - intros px py i q HP Hq HR Hd d. split.
    + apply half_radius_magnitude; assumption.
    + exists (pushFromMouse px py (Mouse.radius (mouse s)) q). split.
      * rewrite applyMouseInteraction_map, HP.
        rewrite nth_error_map, Hq. reflexivity.
      * apply pushFromMouse_half; assumption.
Qed.

(** The cases of the specification read on the source's loop body. *)
Lemma pushFromMouse_no_effect mx my R q :
  let d := Math_hypot (x q - mx) (y q - my) in
  R <= d \/ d <= 1 # 10 -> pushFromMouse mx my R q = q.
Proof.
  intros d Hd. unfold pushFromMouse. fold d.
  assert (E : Qltb d R && Qgtb d (1 # 10) = false).
  { apply andb_false_iff. unfold Qgtb.
    destruct Hd; [left|right]; now apply Qltb_false. }
  rewrite E. reflexivity.
Qed.

Lemma pushFromMouse_effect mx my R q :
  let d := Math_hypot (x q - mx) (y q - my) in
  d < R -> 1 # 10 < d ->
  pushFromMouse mx my R q =
  mkParticle (radius q) (x q) (y q) (vx q) (vy q)
    (pushX q + (x q - mx) / d * (1 - d / R) * 5)
    (pushY q + (y q - my) / d * (1 - d / R) * 5) (friction q).
Proof.
  intros d H1 H2. unfold pushFromMouse, Qgtb. fold d.
  apply Qltb_true in H1, H2. rewrite H1, H2. reflexivity.
Qed.

Lemma pushFromMouse_frame mx my R q :
  let q' := pushFromMouse mx my R q in
  x q' = x q /\ y q' = y q /\ vx q' = vx q /\ vy q' = vy q /\
  radius q' = radius q /\ friction q' = friction q.
Proof.
  unfold pushFromMouse.
  destruct (Qltb _ _ && Qgtb _ _); cbn; repeat split.
Qed.

(** C10: [applyMouseInteraction] writes only [pushX] and [pushY]: the
    pointer and the canvas extents are unchanged, the particle array keeps
    its length, and the particle at each index keeps its position,
    velocity, radius and friction. *)
Theorem applyMouseInteraction_frame (s : ParticleSystem) :
  let s' := applyMouseInteraction s in
  mouse s' = mouse s /\
  canvasWidth s' = canvasWidth s /\ canvasHeight s' = canvasHeight s /\
  length (particles s') = length (particles s) /\
  forall i q, nth_error (particles s) i = Some q ->
    exists q', nth_error (particles s') i = Some q' /\
      x q' = x q /\ y q' = y q /\ vx q' = vx q /\ vy q' = vy q /\
      radius q' = radius q /\ friction q' = friction q.
Proof.
  intro s'. subst s'.
  repeat split.
  - unfold applyMouseInteraction.
    destruct (Mouse.x (mouse s)); [|reflexivity].
    destruct (Mouse.y (mouse s)); reflexivity.
  - unfold applyMouseInteraction.
    destruct (Mouse.x (mouse s)); [|reflexivity].
    destruct (Mouse.y (mouse s)); reflexivity.
  - unfold applyMouseInteraction.
    destruct (Mouse.x (mouse s)); [|reflexivity].
    destruct (Mouse.y (mouse s)); reflexivity.
  - rewrite applyMouseInteraction_map.
    destruct (pointerOf (mouse s)) as [[px py]|]; [apply length_map|reflexivity].
  - intros i q Hq. rewrite applyMouseInteraction_map.
    destruct (pointerOf (mouse s)) as [[px py]|].
    + exists (pushFromMouse px py (Mouse.radius (mouse s)) q). split.
      * rewrite nth_error_map, Hq. reflexivity.
      * apply pushFromMouse_frame.
    + exists q. repeat split. exact Hq.
Qed.

End ForceField.

(** ** Connection graph *)

Lemma StronglySorted_app {A} (R : A -> A -> Prop) (l1 l2 : list A) :
  StronglySorted R l1 -> StronglySorted R l2 ->
  (forall a b, In a l1 -> In b l2 -> R a b) ->
  StronglySorted R (l1 ++ l2).
Proof.
  induction l1 as [|a l1 IH]; intros S1 S2 HR; [exact S2|].
  apply StronglySorted_inv in S1. destruct S1 as [S1 F1].
  cbn. constructor.
  - apply IH; [exact S1|exact S2|]. intros u v Hu Hv. apply HR; [now right|exact Hv].
  - apply Forall_app. split; [exact F1|].
    apply Forall_forall. intros b Hb. apply HR; [now left|exact Hb].
Qed.

Lemma StronglySorted_NoDup {A} (R : A -> A -> Prop) (l : list A) :
  (forall a, ~ R a a) -> StronglySorted R l -> NoDup l.
Proof.
  intros Irr. induction 1 as [|a l S IH F]; constructor; [|exact IH].
  intro Hin. rewrite Forall_forall in F. exact (Irr a (F a Hin)).
Qed.

Lemma emittedBefore_irrefl (a : nat * nat) : ~ emittedBefore a a.
Proof. unfold emittedBefore. lia. Qed.

Section ConnectionGraph.

Context {M : MathLib}.
Variable cfg : Config.

Local Open Scope nat_scope.

(** *** The inner loop *)

Lemma connectPeers_ends p1 i j rest c :
  Forall (fun e => src e = i /\ j <= dst e < j + length rest)
         (connectPeers cfg p1 i j rest c).
Proof.
  revert j c. induction rest as [|p2 rest IH]; intros j c; cbn; [constructor|].
  destruct (connectionMaxPeers cfg <=? c); [constructor|].
  destruct (Qltb _ _).
  - constructor; [cbn; lia|].
    eapply Forall_impl; [|apply (IH (S j) (S c))]. cbn. intros e He. lia.
  - eapply Forall_impl; [|apply (IH (S j) c)]. cbn. intros e He. lia.
Qed.

Lemma connectPeers_sorted p1 i j rest c :
  StronglySorted emittedBefore (map ends (connectPeers cfg p1 i j rest c)).
Proof.
  revert j c. induction rest as [|p2 rest IH]; intros j c; cbn; [constructor|].
  destruct (connectionMaxPeers cfg <=? c); [constructor|].
  destruct (Qltb _ _); [|apply IH].
  cbn. constructor; [apply IH|].
  apply Forall_map.
  eapply Forall_impl; [|apply (connectPeers_ends p1 i (S j) rest (S c))].
  cbn. intros e He. unfold emittedBefore, ends. cbn. lia.
Qed.

Lemma connectPeers_length p1 i j rest c :
  length (connectPeers cfg p1 i j rest c) <= connectionMaxPeers cfg - c.
Proof.
  revert j c. induction rest as [|p2 rest IH]; intros j c; cbn; [lia|].
  destruct (Nat.leb_spec (connectionMaxPeers cfg) c); [cbn; lia|].
  destruct (Qltb _ _).
  - cbn. specialize (IH (S j) (S c)). lia.
  - specialize (IH (S j) c). lia.
Qed.

Lemma connectPeers_all_close p1 i j rest c :
  Forall (closer (connectionMaxDistance cfg) p1) rest ->
  length (connectPeers cfg p1 i j rest c)
  = Nat.min (connectionMaxPeers cfg - c) (length rest).
Proof.
  revert j c.
  induction rest as [|p2 rest IH]; intros j c HF; cbn; [lia|].
  apply Forall_cons_iff in HF. destruct HF as [[_ Hc] HF].
  destruct (Nat.leb_spec (connectionMaxPeers cfg) c) as [L|L].
  - cbn. replace (connectionMaxPeers cfg - c) with 0 by lia. reflexivity.
  - unfold distSq in Hc. apply Qltb_true in Hc. rewrite Hc.
    cbn. rewrite (IH (S j) (S c) HF). lia.
Qed.

Lemma connectPeers_points p1 i j rest c :
  Forall (fun e => x1 e = x p1 /\ y1 e = y p1 /\
                   exists p2, nth_error rest (dst e - j) = Some p2 /\
                              x2 e = x p2 /\ y2 e = y p2)
         (connectPeers cfg p1 i j rest c).
Proof.
  revert j c. induction rest as [|p2 rest IH]; intros j c; cbn; [constructor|].
  destruct (connectionMaxPeers cfg <=? c); [constructor|].
  assert (STEP : forall c',
    Forall (fun e => x1 e = x p1 /\ y1 e = y p1 /\
              exists p0, nth_error (p2 :: rest) (dst e - j) = Some p0 /\
                         x2 e = x p0 /\ y2 e = y p0)
           (connectPeers cfg p1 i (S j) rest c')).
  { intro c'.
    pose proof (connectPeers_ends p1 i (S j) rest c') as HE.
    specialize (IH (S j) c').
    rewrite Forall_forall in *. intros e He.
    destruct (IH e He) as (E1 & E2 & q & Hq & E3 & E4).
    destruct (HE e He) as (_ & Hj & _).
    repeat split; try assumption. exists q.
    replace (dst e - j) with (S (dst e - S j)) by lia.
    cbn. auto. }
  destruct (Qltb _ _); [|apply STEP].
  constructor; [|apply STEP].
  cbn. repeat split. exists p2. rewrite Nat.sub_diag. cbn. auto.
Qed.

Lemma connectPeers_positions p1 p1' i j rest rest' c :
  position p1 = position p1' -> map position rest = map position rest' ->
  connectPeers cfg p1 i j rest c = connectPeers cfg p1' i j rest' c.
Proof.
  unfold position. intros Hp. injection Hp as Hx Hy.
  revert rest' j c. induction rest as [|p2 rest IH]; intros [|p2' rest'] j c Hm;
    try discriminate; [reflexivity|].
  cbn in Hm. injection Hm as Hx2 Hy2 Hm. cbn.
  rewrite Hx, Hy, Hx2, Hy2.
  rewrite (IH rest' (S j) (S c) Hm), (IH rest' (S j) c Hm).
  reflexivity.
Qed.

(** *** The outer loop *)

Lemma connectFrom_ends i ps :
  Forall (fun e => i <= src e /\ src e < dst e /\ dst e < i + length ps)
         (connectFrom cfg i ps).
Proof.
  revert i. induction ps as [|p1 ps IH]; intro i; cbn; [constructor|].
  apply Forall_app. split.
  - eapply Forall_impl; [|apply connectPeers_ends]. cbn. intros e He. lia.
  - eapply Forall_impl; [|apply (IH (S i))]. cbn. intros e He. lia.
Qed.

Lemma connectFrom_sorted i ps :
  StronglySorted emittedBefore (map ends (connectFrom cfg i ps)).
Proof.
  revert i. induction ps as [|p1 ps IH]; intro i; cbn; [constructor|].
  rewrite map_app. apply StronglySorted_app.
  - apply connectPeers_sorted.
  - apply IH.
  - intros a b Ha Hb.
    apply in_map_iff in Ha. destruct Ha as (ea & <- & Ha).
    apply in_map_iff in Hb. destruct Hb as (eb & <- & Hb).
    pose proof (connectPeers_ends p1 i (S i) ps 0) as H1.
    pose proof (connectFrom_ends (S i) ps) as H2.
    rewrite Forall_forall in H1, H2.
    specialize (H1 _ Ha). specialize (H2 _ Hb).
    unfold emittedBefore, ends. cbn. lia.
Qed.

Lemma connectFrom_length i ps :
  length (connectFrom cfg i ps) <= length ps * connectionMaxPeers cfg.
Proof.
  revert i. induction ps as [|p1 ps IH]; intro i; cbn; [lia|].
  rewrite length_app.
  pose proof (connectPeers_length p1 i (S i) ps 0).
  specialize (IH (S i)). lia.
Qed.

Lemma connectFrom_positions i ps ps' :
  map position ps = map position ps' ->
  connectFrom cfg i ps = connectFrom cfg i ps'.
Proof.
  revert ps' i. induction ps as [|p ps IH]; intros [|p' ps'] i Hm;
    try discriminate; [reflexivity|].
  cbn in Hm. injection Hm as Hx Hy Hm. cbn.
  rewrite (IH ps' (S i) Hm).
  rewrite (connectPeers_positions p p' i (S i) ps ps' 0); [reflexivity| |exact Hm].
  unfold position. congruence.
Qed.

Lemma connectFrom_points i ps :
  Forall (fun e => exists p1 p2,
            nth_error ps (src e - i) = Some p1 /\
            nth_error ps (dst e - i) = Some p2 /\
            x1 e = x p1 /\ y1 e = y p1 /\ x2 e = x p2 /\ y2 e = y p2)
         (connectFrom cfg i ps).
Proof.
  revert i. induction ps as [|p1 ps IH]; intro i; cbn; [constructor|].
  apply Forall_app. split.
  - pose proof (connectPeers_points p1 i (S i) ps 0) as HP.
    pose proof (connectPeers_ends p1 i (S i) ps 0) as HE.
    rewrite Forall_forall in *. intros e He.
    destruct (HP e He) as (E1 & E2 & p2 & Hp2 & E3 & E4).
    destruct (HE e He) as (Hs & Hd & _).
    exists p1, p2. rewrite Hs, Nat.sub_diag.
    replace (dst e - i) with (S (dst e - S i)) by lia. cbn.
    repeat split; assumption.
  - pose proof (connectFrom_ends (S i) ps) as HE.
    specialize (IH (S i)).
    rewrite Forall_forall in *. intros e He.
    destruct (IH e He) as (q1 & q2 & H1 & H2 & E).
    destruct (HE e He) as (Hs & Hd & _).
    exists q1, q2.
    replace (src e - i) with (S (src e - S i)) by lia.
    replace (dst e - i) with (S (dst e - S i)) by lia. cbn.
    tauto.
Qed.

(** *** Outgoing edges *)

Lemma outgoing_app k es es' :
  outgoing k (es ++ es') = outgoing k es ++ outgoing k es'.
Proof. apply filter_app. Qed.

Lemma outgoing_all k es :
  Forall (fun e => src e = k) es -> outgoing k es = es.
Proof.
  unfold outgoing. induction 1 as [|e es He _ IH]; cbn; [reflexivity|].
  rewrite He, Nat.eqb_refl, IH. reflexivity.
Qed.

Lemma outgoing_none k es :
  Forall (fun e => src e <> k) es -> outgoing k es = [].
Proof.
  unfold outgoing. induction 1 as [|e es He _ IH]; cbn; [reflexivity|].
  apply Nat.eqb_neq in He. rewrite He. exact IH.
Qed.

Lemma outgoing_connectPeers_same p1 i j rest c :
  outgoing i (connectPeers cfg p1 i j rest c) = connectPeers cfg p1 i j rest c.
Proof.
  apply outgoing_all. eapply Forall_impl; [|apply connectPeers_ends].
  cbn. tauto.
Qed.

Lemma outgoing_connectPeers_other k p1 i j rest c :
  k <> i -> outgoing k (connectPeers cfg p1 i j rest c) = [].
Proof.
  intro Hk. apply outgoing_none. eapply Forall_impl; [|apply connectPeers_ends].
  cbn. intros e [He _]. congruence.
Qed.

Lemma outgoing_connectFrom_below k i ps :
  k < i -> outgoing k (connectFrom cfg i ps) = [].
Proof.
  intro Hk. apply outgoing_none. eapply Forall_impl; [|apply connectFrom_ends].
  cbn. intros e He. lia.
Qed.

Lemma outgoing_connectFrom_length k i ps :
  length (outgoing k (connectFrom cfg i ps)) <= connectionMaxPeers cfg.
Proof.
  revert i. induction ps as [|p1 ps IH]; intro i; [cbn; lia|].
  cbn [connectFrom]. rewrite outgoing_app, length_app.
  destruct (Nat.eq_dec k i) as [->|Hne].
  - rewrite outgoing_connectPeers_same.
    rewrite (outgoing_connectFrom_below i (S i) ps) by lia.
    pose proof (connectPeers_length p1 i (S i) ps 0). cbn. lia.
  - rewrite (outgoing_connectPeers_other k p1 i (S i) ps 0 Hne).
    cbn. apply IH.
Qed.

End ConnectionGraph.

Section ConnectionGraphTheorems.

Context {M : MathLib}.

Local Open Scope nat_scope.

(** C4: in one run of [drawConnections] the particle at any index [i] is
    the lower end of at most [connectionMaxPeers] edges, each to a partner
    at an index [j > i]; and when there are at least
    [connectionMaxPeers + 1] particles, pairwise closer than
    [connectionMaxDistance] (collinear or not), the particle at index 0 is
    the lower end of exactly [connectionMaxPeers] edges. *)
Theorem drawConnections_peer_cap (cfg : Config) (ps : list Particle) :
  (forall i,
      length (outgoing i (drawConnections cfg ps)) <= connectionMaxPeers cfg /\
      Forall (fun e => src e = i /\ i < dst e) (outgoing i (drawConnections cfg ps)))
  /\
  (connectionMaxPeers cfg + 1 <= length ps ->
   ForallOrdPairs (closer (connectionMaxDistance cfg)) ps ->
   length (outgoing 0 (drawConnections cfg ps)) = connectionMaxPeers cfg).
Proof.
  unfold drawConnections. split.
  - intro i. split; [apply outgoing_connectFrom_length|].
    apply Forall_forall. intros e He.
    unfold outgoing in He. apply filter_In in He. destruct He as [He Hs].
    apply Nat.eqb_eq in Hs.
    pose proof (connectFrom_ends cfg 0 ps) as HE.
    rewrite Forall_forall in HE. specialize (HE e He). cbn in HE. lia.
  - intros HN HC. destruct ps as [|p0 rest]; [cbn in HN; lia|].
    cbn [connectFrom]. rewrite outgoing_app, length_app.
    rewrite outgoing_connectPeers_same.
    rewrite (outgoing_connectFrom_below cfg 0 1 rest) by lia.
    inversion HC as [|a l HF _]; subst.
    rewrite (connectPeers_all_close cfg p0 0 1 rest 0 HF).
    cbn in HN. cbn. lia.
Qed.

(** C5: whatever the positions, one run of [drawConnections] over [N]
    particles strokes at most [N * connectionMaxPeers] edges. *)
Theorem drawConnections_edge_bound (cfg : Config) (ps : list Particle) :
  length (drawConnections cfg ps) <= length ps * connectionMaxPeers cfg.
Proof. apply connectFrom_length. Qed.

(** C6: the edge sequence of [drawConnections] is a function of the
    sequence of positions alone; every edge joins an index [i] to a higher
    index [j] of the array, between the positions of these two particles;
    no pair of indices appears twice, in either order; the edges come in
    ([i] ascending, then [j] ascending) order; and no particles give no
    edges. *)
Theorem drawConnections_deterministic_ordered (cfg : Config) (ps : list Particle) :
  let es := drawConnections cfg ps in
  (forall ps', map position ps' = map position ps -> drawConnections cfg ps' = es) /\
  Forall (fun e => src e < dst e /\ dst e < length ps /\
                   exists p1 p2, nth_error ps (src e) = Some p1 /\
                                 nth_error ps (dst e) = Some p2 /\
                                 (x1 e, y1 e) = position p1 /\
                                 (x2 e, y2 e) = position p2) es /\
  NoDup (map ends es) /\
  (forall i j, In (i, j) (map ends es) -> ~ In (j, i) (map ends es)) /\
  StronglySorted emittedBefore (map ends es) /\
  drawConnections cfg [] = [].
Proof.
  intro es. subst es. unfold drawConnections.
  assert (ORD : forall i j, In (i, j) (map ends (connectFrom cfg 0 ps)) -> i < j).
  { intros i j Hin. apply in_map_iff in Hin. destruct Hin as (e & Ee & He).
    pose proof (connectFrom_ends cfg 0 ps) as HE.
    rewrite Forall_forall in HE. specialize (HE e He).
    unfold ends in Ee. injection Ee as <- <-. lia. }
  repeat split.
  - intros ps' Hm. apply connectFrom_positions. exact Hm.
  - pose proof (connectFrom_ends cfg 0 ps) as HE.
    pose proof (connectFrom_points cfg 0 ps) as HP.
    rewrite Forall_forall in *. intros e He.
    destruct (HE e He) as (_ & H1 & H2).
    destruct (HP e He) as (p1 & p2 & N1 & N2 & E1 & E2 & E3 & E4).
    rewrite !Nat.sub_0_r in *.
    repeat split; [exact H1|exact H2|].
    exists p1, p2. unfold position. repeat split; congruence.
  - apply (StronglySorted_NoDup emittedBefore);
      [apply emittedBefore_irrefl|apply connectFrom_sorted].
  - intros i j H1 H2. apply ORD in H1. apply ORD in H2. lia.
  - apply connectFrom_sorted.
Qed.

(** C8: for three particles at (0,0), (10,0) and (200,0), with the
    configured maximal distance 100, [drawConnections] strokes exactly one
    edge, from (0,0) to (10,0), and no edge touches the particle at
    (200,0). *)
Theorem drawConnections_three_particles (ps : list Particle) :
  map position ps = [(0, 0); (10, 0); (200, 0)]%Q ->
  let es := drawConnections config ps in
  length es = 1 /\
  map ends es = [(0, 1)] /\
  map (fun e => ((x1 e, y1 e), (x2 e, y2 e))) es = [((0, 0), (10, 0))]%Q /\
  incident 2 es = [].
Proof.
  intros Hm es. subst es.
  assert (E : drawConnections config ps = drawConnections config threePs).
  { unfold drawConnections. apply connectFrom_positions. exact Hm. }
  rewrite E. vm_compute. repeat split.
Qed.

End ConnectionGraphTheorems.

Lemma linePs_close : ForallOrdPairs (closer (connectionMaxDistance config)) linePs.
Proof.
  unfold linePs.
  repeat first
    [ apply FOP_nil | apply FOP_cons | apply Forall_nil | apply Forall_cons
    | split; [discriminate | reflexivity] ].
Qed.

Lemma drawConnections_peer_cap_witness :
  length (outgoing 0 (@drawConnections sampleMath config linePs))
  = connectionMaxPeers config.
Proof.
  apply (proj2 (@drawConnections_peer_cap sampleMath config linePs)).
  - cbn. lia.
  - exact linePs_close.
Defined.

Lemma drawConnections_deterministic_ordered_witness :
  @drawConnections sampleMath config (map (set_pushX 3) threePs)
  = @drawConnections sampleMath config (map (set_vx 7) threePs).
Proof.
  apply (proj1 (@drawConnections_deterministic_ordered sampleMath config
                  (map (set_vx 7) threePs))).
  reflexivity.
Defined.

Lemma drawConnections_three_particles_witness :
  let es := @drawConnections sampleMath config threePs in
  (length es = 1 /\
   map ends es = [(0, 1)] /\
   map (fun e => ((x1 e, y1 e), (x2 e, y2 e))) es = [((0, 0), (10, 0))]%Q /\
   incident 2 es = [])%nat.
Proof.
  apply (@drawConnections_three_particles sampleMath threePs). reflexivity.
Defined.

(** ** Particle creation *)

Lemma lt_count_iff (i : nat) (count : Q) :
  inject_Z (Z.of_nat i) < count <-> (i < Z.to_nat (Qceiling count))%nat.
Proof.
  pose proof (Qle_ceiling count) as Hup.
  pose proof (Qceiling_lt count) as Hlow.
  split; intro H.
  - assert (L : inject_Z (Z.of_nat i) < inject_Z (Qceiling count)) by lra.
    rewrite <- Zlt_Qlt in L. lia.
  - assert (L : (Z.of_nat i <= Qceiling count - 1)%Z) by lia.
    rewrite Zle_Qle in L. lra.
Qed.

Lemma Qceiling_of_nat (n : nat) : Z.to_nat (Qceiling (inject_Z (Z.of_nat n))) = n.
Proof. rewrite Qceiling_Z. apply Nat2Z.id. Qed.

Section Creation.

Context {M : MathLib}.
Variable cfg : Config.

(** With enough fuel the loop leaves through its test, having pushed one
    particle per value of [i] below [count]. *)
Lemma createLoop_length fuel W H count :
  forall i ps k,
    (Z.to_nat (Qceiling count) - i < fuel)%nat ->
    exists ps' k',
      createLoop cfg fuel W H count i ps k = (Some ps', k') /\
      length ps' = (length ps + (Z.to_nat (Qceiling count) - i))%nat.
Proof.
  induction fuel as [|fuel IH]; intros i ps k Hf; [lia|].
  cbn [createLoop].
  destruct (Qltb_spec (inject_Z (Z.of_nat i)) count) as [L|L].
  - apply lt_count_iff in L. unfold bind.
    destruct (newParticle cfg W H k) as [p k1].
    destruct (IH (S i) (ps ++ [p]) k1) as (ps' & k' & E & Hl); [lia|].
    exists ps', k'. split; [exact E|].
    rewrite Hl, length_app. cbn. lia.
  - rewrite lt_count_iff in L. exists ps, k. split; [reflexivity|]. lia.
Qed.

(** For any configuration: given fuel for the loop, [createParticles]
    returns a system with one particle per value of [i] below [count],
    which for the configuration of the source is 450 on a wide canvas and
    100 otherwise. *)
Lemma createParticles_count (fuel : nat) (s : ParticleSystem) (k : nat) :
  (Z.to_nat (Qceiling (particleCount cfg (canvasWidth s))) < fuel)%nat ->
  exists s' k',
    createParticles cfg fuel s k = (Some s', k') /\
    (smallScreenWidthThreshold cfg < canvasWidth s ->
     length (particles s') =
     Z.to_nat (Qceiling (inject_Z (Z.of_nat (particleBaseCount cfg))
                         * particleCountLargeScreenFactor cfg))) /\
    (canvasWidth s <= smallScreenWidthThreshold cfg ->
     length (particles s') = particleBaseCount cfg) /\
    (cfg = config ->
     length (particles s') =
     if Qgtb (canvasWidth s) 600 then 450%nat else 100%nat).
Proof.
  intro Hf. unfold createParticles, bind.
  destruct (createLoop_length fuel (canvasWidth s) (canvasHeight s)
              (particleCount cfg (canvasWidth s)) 0%nat [] k)
    as (ps & k' & E & Hl); [lia|].
  rewrite E. exists (set_mouse
    (Mouse.mk (Some (- mouseInteractionRadius cfg * 2))
              (Some (- mouseInteractionRadius cfg * 2))
              (Mouse.radius (mouse s))) (set_particles ps s)), k'.
  split; [reflexivity|]. cbn [particles set_mouse set_particles].
  rewrite Hl. cbn [length]. rewrite Nat.add_0_l, Nat.sub_0_r.
  unfold particleCount, Qgtb. repeat split.
  - intro Hw. apply Qltb_true in Hw. rewrite Hw. reflexivity.
  - intro Hw. apply Qltb_false in Hw. rewrite Hw. apply Qceiling_of_nat.
  - intros ->. cbn [smallScreenWidthThreshold config].
    destruct (Qltb 600 (canvasWidth s)); reflexivity.
Qed.

End Creation.

Lemma createParticles_count_witness :
  exists s' k',
    @createParticles sampleMath config 500 wideSystem 0%nat = (Some s', k') /\
    length (particles s') = 450%nat.
Proof.
  destruct (@createParticles_count sampleMath config 500 wideSystem 0%nat)
    as (s' & k' & E & _ & _ & Hc).
  - vm_compute. lia.
  - exists s', k'. split; [exact E|]. exact (Hc eq_refl).
Defined.

(** C9: with the configuration of the source and fuel for the loop,
    [createParticles] returns a system with exactly
    [floor (particleBaseCount * particleCountLargeScreenFactor)] particles,
    that is 450, when the canvas is wider than [smallScreenWidthThreshold],
    and exactly [particleBaseCount] particles, that is 100, otherwise. *)
Theorem createParticles_count_floor {M : MathLib} (fuel : nat)
    (s : ParticleSystem) (k : nat) :
  (450 < fuel)%nat ->
  exists s' k',
    createParticles config fuel s k = (Some s', k') /\
    (smallScreenWidthThreshold config < canvasWidth s ->
     length (particles s') =
     Z.to_nat (Qfloor (inject_Z (Z.of_nat (particleBaseCount config))
                       * particleCountLargeScreenFactor config)) /\
     length (particles s') = 450%nat) /\
    (canvasWidth s <= smallScreenWidthThreshold config ->
     length (particles s') = particleBaseCount config /\
     length (particles s') = 100%nat).
Proof.
  intro Hf.
  assert (Hc : (Z.to_nat (Qceiling (particleCount config (canvasWidth s))) < fuel)%nat).
  { unfold particleCount.
    destruct (Qgtb (canvasWidth s) (smallScreenWidthThreshold config));
      vm_compute Z.to_nat; lia. }
  destruct (createParticles_count config fuel s k Hc) as (s' & k' & E & _ & _ & Hl).
  specialize (Hl eq_refl). exists s', k'. split; [exact E|].
  unfold Qgtb in Hl. cbn [smallScreenWidthThreshold config]. split.
  - intro Hw. apply Qltb_true in Hw. rewrite Hw in Hl.
    split; [rewrite Hl; reflexivity|exact Hl].
  - intro Hw. apply Qltb_false in Hw. rewrite Hw in Hl.
    split; exact Hl.
Qed.

Lemma createParticles_count_floor_witness :
  exists s' k',
    @createParticles sampleMath config 500 wideSystem 0%nat = (Some s', k') /\
    (smallScreenWidthThreshold config < canvasWidth wideSystem ->
     length (particles s') =
     Z.to_nat (Qfloor (inject_Z (Z.of_nat (particleBaseCount config))
                       * particleCountLargeScreenFactor config)) /\
     length (particles s') = 450%nat) /\
    (canvasWidth wideSystem <= smallScreenWidthThreshold config ->
     length (particles s') = particleBaseCount config /\
     length (particles s') = 100%nat).
Proof.
  apply (@createParticles_count_floor sampleMath 500 wideSystem 0%nat). lia.
Defined.

Lemma applyMouseInteraction_refines_spec_witness :
  let q := restingAt 60 80 in
  let d := @Math_hypot sampleMath (x q - 0) (y q - 0) in
  d == 100 /\
  forceMagnitude d (mouseInteractionRadius config) * 5 == (5 # 10) * 5 /\
  exists q',
    nth_error (particles (@applyMouseInteraction sampleMath sampleSystem)) 0 = Some q' /\
    pushX q' == pushX q + (x q - 0) / d * ((5 # 10) * 5) /\
    pushY q' == pushY q + (y q - 0) / d * ((5 # 10) * 5).
Proof.
  split; [reflexivity|].
  apply (proj2 (@applyMouseInteraction_refines_spec sampleMath sampleSystem)
           0 0 0%nat (restingAt 60 80)); reflexivity.
Defined.

Lemma applyMouseInteraction_frame_example :
  map (fun q => (pushX q, pushY q))
      (particles (@applyMouseInteraction sampleMath sampleSystem))
  = [(30000 # 20000, 40000 # 20000); (0, 0); (0, 0)].
Proof. vm_compute. reflexivity. Qed.

Lemma applyMouseInteraction_frame_witness :
  exists q',
    nth_error (particles (@applyMouseInteraction sampleMath sampleSystem)) 0 = Some q' /\
    x q' = 60 /\ y q' = 80 /\ vx q' = 0 /\ vy q' = 0 /\
    radius q' = 1 /\ friction q' = 55 # 100.
Proof.
  apply (proj2 (proj2 (proj2 (proj2
           (@applyMouseInteraction_frame sampleMath sampleSystem)))) 0%nat
           (restingAt 60 80)).
  reflexivity.
Defined.

(** * Part III: further properties of the program *)

(** ** The physics step, continued *)

Lemma Qabs_flip (a : Q) : Qabs (a * -(1)) == Qabs a.
Proof.
  rewrite Qabs_Qmult.
  assert (E : Qabs (-(1)) == 1) by reflexivity.
  rewrite E. ring.
Qed.

Lemma collideX_speed W p : Qabs (vx (collideX W p)) == Qabs (vx p).
Proof.
  unfold collideX.
  destruct (Qltb (x p) (radius p)); cbn; [apply Qabs_flip|].
  destruct (Qgtb (x p) (W - radius p)); cbn; [apply Qabs_flip|reflexivity].
Qed.

Lemma collideY_speed H p : Qabs (vy (collideY H p)) == Qabs (vy p).
Proof.
  unfold collideY.
  destruct (Qltb (y p) (radius p)); cbn; [apply Qabs_flip|].
  destruct (Qgtb (y p) (H - radius p)); cbn; [apply Qabs_flip|reflexivity].
Qed.

Lemma applyPhysics_friction W H p : friction (applyPhysics W H p) = friction p.
Proof.
  rewrite applyPhysics_unfold.
  destruct (collideY_frame H (collideX W (integrated p))) as (_ & _ & _ & _ & ->).
  destruct (collideX_frame W (integrated p)) as (_ & _ & _ & _ & ->).
  reflexivity.
Qed.

Lemma applyPhysics_speed W H p :
  Qabs (vx (applyPhysics W H p)) == Qabs (vx p) /\
  Qabs (vy (applyPhysics W H p)) == Qabs (vy p).
Proof.
  rewrite applyPhysics_unfold. set (q := integrated p). split.
  - destruct (collideY_frame H (collideX W q)) as (_ & _ & -> & _).
    apply (collideX_speed W q).
  - rewrite collideY_speed.
    destruct (collideX_frame W q) as (_ & _ & -> & _). reflexivity.
Qed.

Lemma applyPhysics_inCanvas W H p :
  radius p < W / 2 -> radius p < H / 2 -> inCanvas W H (applyPhysics W H p).
Proof.
  intros HW HH. unfold inCanvas.
  rewrite applyPhysics_radius, applyPhysics_unfold.
  set (q := integrated p).
  destruct (collideY_frame H (collideX W q)) as (_ & -> & _).
  destruct (collideX_frame W q) as (Hr & _).
  split.
  - apply (collideX_bounds W q). exact HW.
  - change (radius p) with (radius q). rewrite <- Hr.
    apply collideY_bounds. rewrite Hr. exact HH.
Qed.

(** X1: a step never changes how fast a particle drifts: the magnitudes of
    [vx] and [vy] are the same after [applyPhysics] as before (a wall only
    flips the sign), and radius and friction are untouched. *)
Theorem applyPhysics_keeps_speed (W H : Q) (p : Particle) :
  let p' := applyPhysics W H p in
  Qabs (vx p') == Qabs (vx p) /\ Qabs (vy p') == Qabs (vy p) /\
  radius p' = radius p /\ friction p' = friction p.
Proof.
  intro p'. subst p'.
  destruct (applyPhysics_speed W H p) as [Hx Hy].
  repeat split; [exact Hx|exact Hy|apply applyPhysics_radius|apply applyPhysics_friction].
Qed.

(** X2: a particle inside the canvas with zero velocity and zero push does
    not move, and keeps zero velocity and zero push. *)
Theorem applyPhysics_stationary (W H : Q) (p : Particle) :
  inCanvas W H p ->
  vx p == 0 -> vy p == 0 -> pushX p == 0 -> pushY p == 0 ->
  let p' := applyPhysics W H p in
  x p' == x p /\ y p' == y p /\
  vx p' == 0 /\ vy p' == 0 /\ pushX p' == 0 /\ pushY p' == 0.
Proof.
  intros [[X1 X2] [Y1 Y2]] Hvx Hvy Hpx Hpy p'. subst p'.
  rewrite applyPhysics_unfold. set (q := integrated p).
  assert (EX : x q == x p) by (subst q; cbn; rewrite Hvx, Hpx; ring).
  assert (EY : y q == y p) by (subst q; cbn; rewrite Hvy, Hpy; ring).
  assert (CX : collideX W q = q).
  { unfold collideX, Qgtb.
    destruct (Qltb_spec (x q) (radius q)) as [L|_];
      [change (radius q) with (radius p) in L; lra|].
    destruct (Qltb_spec (W - radius q) (x q)) as [G|_];
      [change (radius q) with (radius p) in G; lra|reflexivity]. }
  assert (CY : collideY H q = q).
  { unfold collideY, Qgtb.
    destruct (Qltb_spec (y q) (radius q)) as [L|_];
      [change (radius q) with (radius p) in L; lra|].
    destruct (Qltb_spec (H - radius q) (y q)) as [G|_];
      [change (radius q) with (radius p) in G; lra|reflexivity]. }
  rewrite CX, CY. subst q; cbn [integrated x y vx vy pushX pushY].
  split; [rewrite Hvx, Hpx; ring|].
  split; [rewrite Hvy, Hpy; ring|].
  split; [exact Hvx|]. split; [exact Hvy|].
  split; [rewrite Hpx; ring|rewrite Hpy; ring].
Qed.

(** X3: with no push, a particle that was inside the canvas and runs into a
    wall is put on the contact line with its velocity pointing back into
    the canvas. *)
Theorem applyPhysics_bounce_inward (W H : Q) (p : Particle) :
  inCanvas W H p -> pushX p == 0 -> pushY p == 0 ->
  let p' := applyPhysics W H p in
  (x p + vx p < radius p -> x p' = radius p /\ 0 < vx p') /\
  (W - radius p < x p + vx p -> x p' = W - radius p /\ vx p' < 0) /\
  (y p + vy p < radius p -> y p' = radius p /\ 0 < vy p') /\
  (H - radius p < y p + vy p -> y p' = H - radius p /\ vy p' < 0).
Proof.
  intros [[X1 X2] [Y1 Y2]] Hpx Hpy p'. subst p'.
  rewrite applyPhysics_unfold. set (q := integrated p).
  assert (EX : x q == x p + vx p) by (subst q; cbn; rewrite Hpx; ring).
  assert (EY : y q == y p + vy p) by (subst q; cbn; rewrite Hpy; ring).
  destruct (collideY_frame H (collideX W q)) as (_ & -> & -> & _).
  assert (RY : radius (collideX W q) = radius p)
    by (destruct (collideX_frame W q) as (-> & _); reflexivity).
  assert (YY : y (collideX W q) = y q)
    by (destruct (collideX_frame W q) as (_ & -> & _); reflexivity).
  assert (VY : vy (collideX W q) = vy p)
    by (destruct (collideX_frame W q) as (_ & _ & -> & _); reflexivity).
  repeat split.
  - unfold collideX.
    assert (L : x q < radius q) by (change (radius q) with (radius p); lra).
    apply Qltb_true in L. rewrite L. reflexivity.
  - unfold collideX.
    assert (L : x q < radius q) by (change (radius q) with (radius p); lra).
    apply Qltb_true in L. rewrite L. cbn. lra.
  - unfold collideX, Qgtb.
    destruct (Qltb_spec (x q) (radius q)) as [L|_];
      [change (radius q) with (radius p) in L; lra|].
    assert (G : W - radius q < x q) by (change (radius q) with (radius p); lra).
    apply Qltb_true in G. rewrite G. reflexivity.
  - unfold collideX, Qgtb.
    destruct (Qltb_spec (x q) (radius q)) as [L|_];
      [change (radius q) with (radius p) in L; lra|].
    assert (G : W - radius q < x q) by (change (radius q) with (radius p); lra).
    apply Qltb_true in G. rewrite G. cbn. lra.
  - unfold collideY. rewrite RY, YY.
    assert (L : y q < radius p) by lra.
    apply Qltb_true in L. rewrite L. cbn. reflexivity.
  - unfold collideY. rewrite RY, YY.
    assert (L : y q < radius p) by lra.
    apply Qltb_true in L. rewrite L. cbn. rewrite VY. lra.
  - unfold collideY, Qgtb. rewrite RY, YY.
    destruct (Qltb_spec (y q) (radius p)) as [L|_]; [lra|].
    assert (G : H - radius p < y q) by lra.
    apply Qltb_true in G. rewrite G. cbn. reflexivity.
  - unfold collideY, Qgtb. rewrite RY, YY.
    destruct (Qltb_spec (y q) (radius p)) as [L|_]; [lra|].
    assert (G : H - radius p < y q) by lra.
    apply Qltb_true in G. rewrite G. cbn. rewrite VY. lra.
Qed.

(** ** Animation frames *)

Lemma Forall2_map_self {A} (R : A -> A -> Prop) (f : A -> A) (l : list A) :
  (forall a, In a l -> R (f a) a) -> Forall2 R (map f l) l.
Proof.
  induction l as [|a l IH]; intro H; cbn; constructor.
  - apply H. now left.
  - apply IH. intros b Hb. apply H. now right.
Qed.

Lemma Forall2_compose {A} (R1 R2 R3 : A -> A -> Prop) (l3 l2 l1 : list A) :
  (forall a b c, R1 a b -> R2 b c -> R3 a c) ->
  Forall2 R1 l3 l2 -> Forall2 R2 l2 l1 -> Forall2 R3 l3 l1.
Proof.
  intros HR H32. revert l1.
  induction H32 as [|a b l3 l2 Hab _ IH]; intros l1 H21; inversion H21; subst;
    constructor; eauto.
Qed.

Lemma Forall2_refl {A} (R : A -> A -> Prop) (l : list A) :
  (forall a, R a a) -> Forall2 R l l.
Proof. intro H. induction l; constructor; auto. Qed.

Section Frames.

Context {M : MathLib}.
Variable cfg : Config.

Lemma applyMouseInteraction_mouse s : mouse (applyMouseInteraction s) = mouse s.
Proof.
  unfold applyMouseInteraction.
  destruct (Mouse.x (mouse s)); [|reflexivity].
  destruct (Mouse.y (mouse s)); reflexivity.
Qed.

Lemma applyMouseInteraction_width s :
  canvasWidth (applyMouseInteraction s) = canvasWidth s.
Proof.
  unfold applyMouseInteraction.
  destruct (Mouse.x (mouse s)); [|reflexivity].
  destruct (Mouse.y (mouse s)); reflexivity.
Qed.

Lemma applyMouseInteraction_height s :
  canvasHeight (applyMouseInteraction s) = canvasHeight s.
Proof.
  unfold applyMouseInteraction.
  destruct (Mouse.x (mouse s)); [|reflexivity].
  destruct (Mouse.y (mouse s)); reflexivity.
Qed.

Lemma applyMouseInteraction_Forall2 (R : Particle -> Particle -> Prop) s :
  (forall q, R q q) ->
  (forall mx my q, R (pushFromMouse mx my (Mouse.radius (mouse s)) q) q) ->
  Forall2 R (particles (applyMouseInteraction s)) (particles s).
Proof.
  intros Hrefl Hpush. rewrite applyMouseInteraction_map.
  destruct (pointerOf (mouse s)) as [[px py]|].
  - apply Forall2_map_self. intros q _. apply Hpush.
  - apply Forall2_refl. exact Hrefl.
Qed.

Lemma animate_particles s :
  particles (fst (animate cfg s)) =
  map (applyPhysics (canvasWidth s) (canvasHeight s))
      (particles (applyMouseInteraction s)).
Proof.
  unfold animate. cbn [fst particles set_particles].
  rewrite applyMouseInteraction_width, applyMouseInteraction_height.
  reflexivity.
Qed.

Lemma animate_mouse s : mouse (fst (animate cfg s)) = mouse s.
Proof. unfold animate. cbn. apply applyMouseInteraction_mouse. Qed.

Lemma animate_width s : canvasWidth (fst (animate cfg s)) = canvasWidth s.
Proof. unfold animate. cbn. apply applyMouseInteraction_width. Qed.

Lemma animate_height s : canvasHeight (fst (animate cfg s)) = canvasHeight s.
Proof. unfold animate. cbn. apply applyMouseInteraction_height. Qed.

(** A relation that holds across the force step and across the physics
    step holds across a frame. *)
Lemma animate_Forall2 (R : Particle -> Particle -> Prop) s :
  (forall q, R (applyPhysics (canvasWidth s) (canvasHeight s) q) q) ->
  (forall mx my q,
      R (applyPhysics (canvasWidth s) (canvasHeight s)
           (pushFromMouse mx my (Mouse.radius (mouse s)) q)) q) ->
  Forall2 R (particles (fst (animate cfg s))) (particles s).
Proof.
  intros Hphys Hboth. rewrite animate_particles, applyMouseInteraction_map.
  destruct (pointerOf (mouse s)) as [[px py]|].
  - rewrite map_map. apply Forall2_map_self. intros q _. apply Hboth.
  - apply Forall2_map_self. intros q _. apply Hphys.
Qed.

Lemma frames_invariant (Inv : ParticleSystem -> Prop) :
  (forall s, Inv s -> Inv (fst (animate cfg s))) ->
  forall n s, Inv s -> Inv (frames cfg n s).
Proof.
  intros Hstep n. induction n as [|n IH]; intros s Hs; cbn; [exact Hs|].
  apply IH, Hstep, Hs.
Qed.

Lemma frames_Forall2 (Inv : ParticleSystem -> Prop)
    (Step : Particle -> Particle -> Prop) (R : nat -> Particle -> Particle -> Prop) :
  (forall s, Inv s -> Inv (fst (animate cfg s))) ->
  (forall s, Inv s -> Forall2 Step (particles (fst (animate cfg s))) (particles s)) ->
  (forall q, R 0%nat q q) ->
  (forall n a b c, R n a b -> Step b c -> R (S n) a c) ->
  forall n s, Inv s -> Forall2 (R n) (particles (frames cfg n s)) (particles s).
Proof.
  intros Hinv Hstep H0 HS n. induction n as [|n IH]; intros s Hs; cbn.
  - apply Forall2_refl. exact H0.
  - apply (Forall2_compose (R n) Step (R (S n)) _ (particles (fst (animate cfg s))) _).
    + apply HS.
    + apply IH, Hinv, Hs.
    + apply Hstep, Hs.
Qed.

Lemma frames_mouse n s : mouse (frames cfg n s) = mouse s.
Proof.
  revert s. induction n as [|n IH]; intro s; cbn; [reflexivity|].
  rewrite IH. apply animate_mouse.
Qed.

Lemma frames_width n s : canvasWidth (frames cfg n s) = canvasWidth s.
Proof.
  revert s. induction n as [|n IH]; intro s; cbn; [reflexivity|].
  rewrite IH. apply animate_width.
Qed.

Lemma frames_height n s : canvasHeight (frames cfg n s) = canvasHeight s.
Proof.
  revert s. induction n as [|n IH]; intro s; cbn; [reflexivity|].
  rewrite IH. apply animate_height.
Qed.

Lemma pushFromMouse_radius mx my R q : radius (pushFromMouse mx my R q) = radius q.
Proof. destruct (pushFromMouse_frame mx my R q) as (_ & _ & _ & _ & E & _). exact E. Qed.

Lemma sameBody_refl q : sameBody q q.
Proof. unfold sameBody. repeat split; reflexivity. Qed.

Lemma sameBody_trans a b c : sameBody a b -> sameBody b c -> sameBody a c.
Proof.
  unfold sameBody. intros (R1 & F1 & X1 & Y1) (R2 & F2 & X2 & Y2).
  split; [congruence|]. split; [congruence|].
  split; [rewrite X1; exact X2|rewrite Y1; exact Y2].
Qed.

Lemma applyPhysics_sameBody W H q : sameBody (applyPhysics W H q) q.
Proof.
  unfold sameBody. destruct (applyPhysics_speed W H q) as [SX SY].
  split; [apply applyPhysics_radius|]. split; [apply applyPhysics_friction|].
  split; assumption.
Qed.

Lemma pushFromMouse_sameBody mx my R q : sameBody (pushFromMouse mx my R q) q.
Proof.
  unfold sameBody.
  destruct (pushFromMouse_frame mx my R q) as (_ & _ & -> & -> & -> & ->).
  repeat split; reflexivity.
Qed.

Lemma animate_sameBody s :
  Forall2 sameBody (particles (fst (animate cfg s))) (particles s).
Proof.
  apply animate_Forall2.
  - intro q. apply applyPhysics_sameBody.
  - intros mx my q.
    eapply sameBody_trans; [apply applyPhysics_sameBody|apply pushFromMouse_sameBody].
Qed.

(** X4: no number of animation frames changes the pointer, the canvas
    extents, the number and order of the particles, or any particle's
    radius, friction and drift speed on either axis. *)
Theorem frames_keep_bodies (n : nat) (s : ParticleSystem) :
  let s' := frames cfg n s in
  mouse s' = mouse s /\
  canvasWidth s' = canvasWidth s /\ canvasHeight s' = canvasHeight s /\
  length (particles s') = length (particles s) /\
  Forall2 sameBody (particles s') (particles s).
Proof.
  intro s'. subst s'.
  assert (F : Forall2 sameBody (particles (frames cfg n s)) (particles s)).
  { apply (frames_Forall2 (fun _ => True) sameBody (fun _ => sameBody)); auto.
    - intros s0 _. apply animate_sameBody.
    - intro q. apply sameBody_refl.
    - intros _ a b c. apply sameBody_trans. }
  split; [apply frames_mouse|]. split; [apply frames_width|].
  split; [apply frames_height|]. split; [|exact F].
  apply (Forall2_length F).
Qed.

Lemma animate_smallInCanvas W H s :
  canvasWidth s = W -> canvasHeight s = H ->
  Forall (fun p => radius p < W / 2 /\ radius p < H / 2) (particles s) ->
  smallInCanvas W H (fst (animate cfg s)).
Proof.
  intros EW EH HF. unfold smallInCanvas.
  rewrite animate_width, animate_height, animate_particles, EW, EH.
  split; [reflexivity|]. split; [reflexivity|].
  apply Forall_map.
  assert (HF' : Forall (fun p => radius p < W / 2 /\ radius p < H / 2)
                       (particles (applyMouseInteraction s))).
  { rewrite applyMouseInteraction_map.
    destruct (pointerOf (mouse s)) as [[px py]|]; [|exact HF].
    apply Forall_map. eapply Forall_impl; [|exact HF].
    cbn. intros q Hq. rewrite pushFromMouse_radius. exact Hq. }
  eapply Forall_impl; [|exact HF'].
  cbn. intros q [HW HH]. rewrite applyPhysics_radius.
  split; [split; assumption|]. apply applyPhysics_inCanvas; assumption.
Qed.

(** X5: when every radius is strictly less than half of each canvas extent,
    then after any positive number of animation frames, wherever the
    particles started and whatever the pointer does to them, every particle
    lies within the canvas. *)
Theorem frames_in_canvas (n : nat) (s : ParticleSystem) :
  (0 < n)%nat ->
  Forall (fun p => radius p < canvasWidth s / 2 /\ radius p < canvasHeight s / 2)
         (particles s) ->
  Forall (inCanvas (canvasWidth s) (canvasHeight s)) (particles (frames cfg n s)).
Proof.
  intros Hn HF. destruct n as [|n]; [lia|]. cbn [frames].
  set (W := canvasWidth s) in *. set (H := canvasHeight s) in *.
  assert (I : smallInCanvas W H (frames cfg n (fst (animate cfg s)))).
  { apply (frames_invariant (smallInCanvas W H)).
    - intros s0 (EW & EH & HF0). apply animate_smallInCanvas; try assumption.
      eapply Forall_impl; [|exact HF0]. cbn. tauto.
    - apply animate_smallInCanvas; [reflexivity|reflexivity|exact HF]. }
  destruct I as (_ & _ & I). eapply Forall_impl; [|exact I]. cbn. tauto.
Qed.

End Frames.

(** ** Push over frames without force *)

Lemma pushNotGrown_refl q : pushNotGrown q q.
Proof. unfold pushNotGrown. split; [reflexivity|]. intros _ _. split; apply Qle_refl. Qed.

Lemma pushNotGrown_trans a b c : pushNotGrown a b -> pushNotGrown b c -> pushNotGrown a c.
Proof.
  unfold pushNotGrown. intros [F1 D1] [F2 D2].
  split; [congruence|]. intros H0 H1.
  rewrite F2 in D1. destruct (D1 H0 H1) as [X1 Y1]. destruct (D2 H0 H1) as [X2 Y2].
  split; eapply Qle_trans; eassumption.
Qed.

Lemma applyPhysics_pushNotGrown W H q : pushNotGrown (applyPhysics W H q) q.
Proof.
  unfold pushNotGrown. split; [apply applyPhysics_friction|].
  intros F0 F1. rewrite applyPhysics_unfold. set (p := integrated q).
  destruct (collideY_frame H (collideX W p)) as (_ & _ & _ & -> & _).
  split.
  - apply Qle_trans with (Qabs (pushX p)); [apply collideX_push|].
    apply Qabs_scale; assumption.
  - apply Qle_trans with (Qabs (pushY (collideX W p))); [apply collideY_push|].
    destruct (collideX_frame W p) as (_ & _ & _ & -> & _).
    apply Qabs_scale; assumption.
Qed.

Section Decay.

Context {M : MathLib}.
Variable cfg : Config.

Lemma frames_pushNotGrown (Inv : ParticleSystem -> Prop) :
  (forall s, Inv s -> Inv (fst (animate cfg s))) ->
  (forall s, Inv s -> particles (applyMouseInteraction s) = particles s) ->
  forall n s, Inv s ->
    Forall2 pushNotGrown (particles (frames cfg n s)) (particles s).
Proof.
  intros Hinv Hid.
  apply (frames_Forall2 cfg Inv pushNotGrown (fun _ => pushNotGrown)).
  - exact Hinv.
  - intros s Hs. rewrite animate_particles, (Hid s Hs).
    apply Forall2_map_self. intros q _. apply applyPhysics_pushNotGrown.
  - apply pushNotGrown_refl.
  - intros _ a b c. apply pushNotGrown_trans.
Qed.

(** X6: while the pointer is absent (either coordinate undefined), the
    force step of every frame leaves the particles as they are, and after
    any number of animation frames no push component of a particle with
    friction between 0 and 1 is larger in magnitude than it was at the
    start. *)
Theorem frames_no_force_pointer_absent (n : nat) (s : ParticleSystem) :
  pointerOf (mouse s) = None ->
  particles (applyMouseInteraction (frames cfg n s)) = particles (frames cfg n s) /\
  Forall2 pushNotGrown (particles (frames cfg n s)) (particles s).
Proof.
  intro Habs. split.
  - rewrite applyMouseInteraction_map, frames_mouse, Habs. reflexivity.
  - apply (frames_pushNotGrown (fun s => pointerOf (mouse s) = None)); [| |exact Habs].
    + intros s0 H0. rewrite animate_mouse. exact H0.
    + intros s0 H0. rewrite applyMouseInteraction_map, H0. reflexivity.
Qed.

Lemma pushFromMouse_left_of mx my R q :
  hypotDominates M -> mx + R <= 0 -> 0 <= x q ->
  pushFromMouse mx my R q = q.
Proof.
  intros HD Hm Hx. apply pushFromMouse_no_effect. left.
  destruct (HD (x q - mx) (y q - my)) as [Hd _].
  apply Qle_trans with (Qabs (x q - mx)); [|exact Hd].
  apply Qle_trans with (x q - mx); [lra|apply Qle_Qabs].
Qed.

Lemma pointerLeftOfCanvas_untouched W H s :
  pointerLeftOfCanvas M W H s ->
  particles (applyMouseInteraction s) = particles s.
Proof.
  intros (HD & (mx & my & HP & Hm) & _ & _ & HF).
  rewrite applyMouseInteraction_map, HP.
  rewrite <- (map_id (particles s)) at 2.
  apply map_ext_in. intros q Hq.
  rewrite Forall_forall in HF. destruct (HF q Hq) as (R0 & _ & _ & Rx).
  apply pushFromMouse_left_of; [exact HD|exact Hm|lra].
Qed.

Lemma pointerLeftOfCanvas_animate W H s :
  pointerLeftOfCanvas M W H s ->
  pointerLeftOfCanvas M W H (fst (animate cfg s)).
Proof.
  intro I. pose proof (pointerLeftOfCanvas_untouched W H s I) as Hid.
  destruct I as (HD & HP & EW & EH & HF).
  unfold pointerLeftOfCanvas.
  rewrite animate_mouse, animate_width, animate_height, animate_particles, Hid, EW, EH.
  split; [exact HD|]. split; [exact HP|].
  split; [reflexivity|]. split; [reflexivity|].
  apply Forall_map. eapply Forall_impl; [|exact HF].
  cbn. intros q (R0 & RW & RH & _).
  rewrite applyPhysics_radius.
  split; [exact R0|]. split; [exact RW|]. split; [exact RH|].
  destruct (applyPhysics_inCanvas W H q RW RH) as [[Hx _] _].
  rewrite applyPhysics_radius in Hx. exact Hx.
Qed.

(** X7: while the pointer stays at least its radius to the left of the
    canvas, as [createParticles] leaves it, the force step of every frame
    leaves the particles inside the canvas as they are, and after any
    number of animation frames no push component of a particle with
    friction between 0 and 1 is larger in magnitude than it was at the
    start.  [Math.hypot] is only assumed to be at least the magnitude of
    each of its arguments. *)
Theorem frames_no_force_pointer_off_canvas (n : nat) (s : ParticleSystem) :
  pointerLeftOfCanvas M (canvasWidth s) (canvasHeight s) s ->
  particles (applyMouseInteraction (frames cfg n s)) = particles (frames cfg n s) /\
  Forall2 pushNotGrown (particles (frames cfg n s)) (particles s).
Proof.
  intro I. split.
  - apply (pointerLeftOfCanvas_untouched (canvasWidth s) (canvasHeight s)).
    apply (frames_invariant cfg
             (pointerLeftOfCanvas M (canvasWidth s) (canvasHeight s)));
      [|exact I].
    intros s0. apply pointerLeftOfCanvas_animate.
  - apply (frames_pushNotGrown
             (pointerLeftOfCanvas M (canvasWidth s) (canvasHeight s)));
      [| |exact I].
    + intros s0. apply pointerLeftOfCanvas_animate.
    + intros s0. apply pointerLeftOfCanvas_untouched.
Qed.

End Decay.

(** ** The force field, continued *)

Section Repulsion.

Context {M : MathLib}.

(** In the active branch the distance and the influence radius are
    positive and the magnitude factor lies strictly between 0 and 1. *)
Lemma forceMagnitude_active (d R : Q) :
  d < R -> 1 # 10 < d ->
  0 < / d /\ 0 < forceMagnitude d R /\ forceMagnitude d R < 1.
Proof.
  intros H1 H2. unfold forceMagnitude.
  assert (Hd : 0 < d) by lra. assert (HR : 0 < R) by lra.
  split; [apply Qinv_lt_0_compat; exact Hd|].
  assert (L : d / R < 1) by (apply Qlt_shift_div_r; lra).
  assert (G : 0 < d / R) by (apply Qlt_shift_div_l; lra).
  lra.
Qed.

Lemma pushFromMouse_cases mx my R q :
  let d := Math_hypot (x q - mx) (y q - my) in
  pushFromMouse mx my R q = q \/
  (d < R /\ 1 # 10 < d /\
   pushFromMouse mx my R q =
   mkParticle (radius q) (x q) (y q) (vx q) (vy q)
     (pushX q + (x q - mx) / d * forceMagnitude d R * 5)
     (pushY q + (y q - my) / d * forceMagnitude d R * 5) (friction q)).
Proof.
  intro d. unfold pushFromMouse, Qgtb. fold d.
  destruct (Qltb_spec d R) as [H1|H1]; [|left; reflexivity].
  destruct (Qltb_spec (1 # 10) d) as [H2|H2]; [|left; reflexivity].
  right. repeat split; assumption.
Qed.

Lemma pushFromMouse_repels mx my R q :
  let q' := pushFromMouse mx my R q in
  0 <= (pushX q' - pushX q) * (x q - mx) /\
  0 <= (pushY q' - pushY q) * (y q - my).
Proof.
  intro q'. subst q'.
  destruct (pushFromMouse_cases mx my R q) as [->|(H1 & H2 & ->)].
  - split; ring_simplify; apply Qle_refl.
  - destruct (forceMagnitude_active _ _ H1 H2) as (Hi & Hm & _).
    cbn [pushX pushY]. unfold Qdiv.
    set (dx := x q - mx) in *. set (dy := y q - my) in *.
    generalize dependent (/ Math_hypot dx dy). intros i Hi.
    generalize dependent (forceMagnitude (Math_hypot dx dy) R). intros m Hm.
    assert (K : 0 < i * m) by nra.
    split.
    + setoid_replace ((pushX q + dx * i * m * 5 - pushX q) * dx)
        with (5 * (i * m) * (dx * dx)) by ring. nra.
    + setoid_replace ((pushY q + dy * i * m * 5 - pushY q) * dy)
        with (5 * (i * m) * (dy * dy)) by ring. nra.
Qed.

Lemma Qabs_ratio (a d : Q) : 0 < d -> Qabs a <= d -> Qabs (a / d) <= 1.
Proof.
  intros Hd Ha. unfold Qdiv. rewrite Qabs_Qmult.
  rewrite (Qabs_pos (/ d)) by (apply Qlt_le_weak, Qinv_lt_0_compat; exact Hd).
  apply Qle_shift_div_r; [exact Hd|]. lra.
Qed.

Lemma pushFromMouse_bounded mx my R q :
  hypotDominates M ->
  let q' := pushFromMouse mx my R q in
  Qabs (pushX q' - pushX q) < 5 /\ Qabs (pushY q' - pushY q) < 5.
Proof.
  intros HD q'. subst q'.
  destruct (pushFromMouse_cases mx my R q) as [->|(H1 & H2 & ->)].
  - assert (E : forall a, Qabs (a - a) == 0)
      by (intro a; setoid_replace (a - a) with 0 by ring; reflexivity).
    rewrite !E. split; reflexivity.
  - destruct (forceMagnitude_active _ _ H1 H2) as (_ & Hm & Hm1).
    destruct (HD (x q - mx) (y q - my)) as [Dx Dy].
    cbn [pushX pushY].
    set (dx := x q - mx) in *. set (dy := y q - my) in *.
    set (d := Math_hypot dx dy) in *.
    assert (Hd : 0 < d) by lra.
    pose proof (Qabs_ratio dx d Hd Dx) as Ux.
    pose proof (Qabs_ratio dy d Hd Dy) as Uy.
    pose proof (Qabs_nonneg (dx / d)) as Nx.
    pose proof (Qabs_nonneg (dy / d)) as Ny.
    generalize dependent (forceMagnitude d R). intros m Hm Hm1.
    split.
    + setoid_replace (pushX q + dx / d * m * 5 - pushX q)
        with (dx / d * (m * 5)) by ring.
      rewrite Qabs_Qmult, (Qabs_pos (m * 5)) by lra.
      generalize dependent (Qabs (dx / d)). intros u Uu Nu. nra.
    + setoid_replace (pushY q + dy / d * m * 5 - pushY q)
        with (dy / d * (m * 5)) by ring.
      rewrite Qabs_Qmult, (Qabs_pos (m * 5)) by lra.
      generalize dependent (Qabs (dy / d)). intros u Uu Nu. nra.
Qed.

Lemma pushFromMouse_twice mx my R q :
  let q1 := pushFromMouse mx my R q in
  let q2 := pushFromMouse mx my R q1 in
  (q1 = q /\ q2 = q) \/
  exists dX dY,
    pushX q1 = pushX q + dX /\ pushY q1 = pushY q + dY /\
    pushX q2 = pushX q1 + dX /\ pushY q2 = pushY q1 + dY.
Proof.
  intros q1 q2. subst q1 q2.
  destruct (pushFromMouse_cases mx my R q) as [E|(H1 & H2 & _)].
  - left. rewrite !E. split; reflexivity.
  - right. rewrite (pushFromMouse_effect mx my R q H1 H2).
    set (q1 := mkParticle _ _ _ _ _ _ _ _).
    rewrite (pushFromMouse_effect mx my R q1 H1 H2).
    subst q1. cbn [pushX pushY x y].
    eexists. eexists. repeat split; reflexivity.
Qed.

End Repulsion.

Section ForceFieldTheorems.

Context {M : MathLib}.

(** X8: after a pointer event at [(cx, cy)], [applyMouseInteraction] moves
    no particle and never pushes one towards the pointer: on each axis the
    change of the push accumulator is zero or has the sign of the
    particle's offset from the pointer. *)
Theorem pointer_event_repels (cx cy : Q) (s : ParticleSystem) :
  Forall2 (fun q' q =>
             position q' = position q /\
             0 <= (pushX q' - pushX q) * (x q - cx) /\
             0 <= (pushY q' - pushY q) * (y q - cy))
          (particles (applyMouseInteraction (handleMouseMove cx cy s)))
          (particles s).
Proof.
  rewrite applyMouseInteraction_map.
  change (pointerOf (mouse (handleMouseMove cx cy s))) with (Some (cx, cy)).
  change (particles (handleMouseMove cx cy s)) with (particles s).
  apply Forall2_map_self. intros q _. split.
  - destruct (pushFromMouse_frame cx cy
                (Mouse.radius (mouse (handleMouseMove cx cy s))) q) as (Ex & Ey & _).
    unfold position. rewrite Ex, Ey. reflexivity.
  - apply pushFromMouse_repels.
Qed.

(** X9: one [applyMouseInteraction] changes each push component of each
    particle by less than 5, the strength constant, provided [Math.hypot]
    is at least the magnitude of each of its arguments. *)
Theorem applyMouseInteraction_bounded (s : ParticleSystem) :
  hypotDominates M ->
  Forall2 (fun q' q =>
             Qabs (pushX q' - pushX q) < 5 /\ Qabs (pushY q' - pushY q) < 5)
          (particles (applyMouseInteraction s)) (particles s).
Proof.
  intro HD. apply applyMouseInteraction_Forall2.
  - intro q.
    assert (E : forall a, Qabs (a - a) == 0)
      by (intro a; setoid_replace (a - a) with 0 by ring; reflexivity).
    rewrite !E. split; reflexivity.
  - intros mx my q. apply pushFromMouse_bounded. exact HD.
Qed.

(** X10: the force accumulates: when [applyMouseInteraction] is applied a
    second time, the particles not having moved, each particle is either
    left alone both times, or has the same two amounts added to [pushX] and
    [pushY] the second time as the first, on top of what the first
    application left. *)
Theorem applyMouseInteraction_compounds (s : ParticleSystem) (i : nat)
    (q q1 q2 : Particle) :
  nth_error (particles s) i = Some q ->
  nth_error (particles (applyMouseInteraction s)) i = Some q1 ->
  nth_error (particles (applyMouseInteraction (applyMouseInteraction s))) i = Some q2 ->
  (q1 = q /\ q2 = q) \/
  exists dX dY,
    pushX q1 = pushX q + dX /\ pushY q1 = pushY q + dY /\
    pushX q2 = pushX q1 + dX /\ pushY q2 = pushY q1 + dY.
Proof.
  intros H0 H1 H2.
  rewrite applyMouseInteraction_map, applyMouseInteraction_mouse in H2.
  rewrite applyMouseInteraction_map in H1, H2.
  destruct (pointerOf (mouse s)) as [[px py]|].
  - rewrite map_map, nth_error_map, H0 in H2. rewrite nth_error_map, H0 in H1.
    cbn in H1, H2. injection H1 as <-. injection H2 as <-.
    apply pushFromMouse_twice.
  - rewrite H0 in H1, H2. injection H1 as <-. injection H2 as <-.
    left. split; reflexivity.
Qed.

End ForceFieldTheorems.

(** ** Random helpers and the constructor *)

Section Construction.

Context {M : MathLib}.
Variable cfg : Config.

Lemma random_value (min max : Q) (k : nat) :
  random min max k = (Math_random k * (max - min) + min, S k).
Proof. reflexivity. Qed.

Lemma random_bounds (min max : Q) (k : nat) :
  randomInUnit M -> min <= max ->
  min <= fst (random min max k) /\ fst (random min max k) <= max /\
  (min < max -> fst (random min max k) < max).
Proof.
  intros HU Hm. destruct (HU k) as [U0 U1].
  rewrite random_value. cbn [fst].
  generalize dependent (Math_random k). intros r U0 U1.
  assert (P0 : 0 <= r * (max - min)) by (apply Qmult_le_0_compat; lra).
  assert (P1 : 0 <= (1 - r) * (max - min)) by (apply Qmult_le_0_compat; lra).
  split; [lra|]. split; [lra|].
  intro Hs.
  assert (P2 : 0 < (1 - r) * (max - min)) by (apply Qmult_lt_0_compat; lra).
  lra.
Qed.

(** X11: with [Math.random] in [0, 1), [random(a, b)] for whole numbers
    [a <= b] makes one draw and returns a number from [a] to [b], both
    included. *)
Theorem random_in_range (a b : Z) (k : nat) :
  randomInUnit M -> (a <= b)%Z ->
  let (v, k') := random (inject_Z a) (inject_Z b) k in
  k' = S k /\ inject_Z a <= v /\ v <= inject_Z b.
Proof.
  intros HU Hab.
  assert (Hq : inject_Z a <= inject_Z b) by (rewrite <- Zle_Qle; exact Hab).
  destruct (random_bounds (inject_Z a) (inject_Z b) k HU Hq) as (B1 & B2 & _).
  rewrite random_value in *. cbn [fst] in B1, B2.
  split; [reflexivity|]. split; assumption.
Qed.

Lemma randomInt_whole (a b : Z) (k : nat) :
  randomInUnit M -> (a < b)%Z ->
  exists z, randomInt (inject_Z a) (inject_Z b) k = (inject_Z z, S k) /\
            (a <= z < b)%Z.
Proof.
  intros HU Hab.
  assert (Hq : inject_Z a <= inject_Z b) by (rewrite <- Zle_Qle; lia).
  assert (Hs : inject_Z a < inject_Z b) by (rewrite <- Zlt_Qlt; exact Hab).
  destruct (random_bounds (inject_Z a) (inject_Z b) k HU Hq) as (B1 & _ & B3).
  specialize (B3 Hs).
  unfold randomInt, bind, ret. rewrite random_value in *. cbn [fst] in B1, B3.
  set (v := Math_random k * (inject_Z b - inject_Z a) + inject_Z a) in *.
  exists (Qfloor v). split; [reflexivity|]. split.
  - rewrite <- (Qfloor_Z a). apply Qfloor_resp_le. exact B1.
  - pose proof (Qfloor_le v) as Hf.
    assert (L : inject_Z (Qfloor v) < inject_Z b) by lra.
    rewrite <- Zlt_Qlt in L. exact L.
Qed.

(** X12: with [Math.random] in [0, 1), [randomInt(a, b)] for whole numbers
    [a <= b] makes one draw and returns a whole number from [a] to [b],
    both included. *)
Theorem randomInt_in_range (a b : Z) (k : nat) :
  randomInUnit M -> (a <= b)%Z ->
  exists z, randomInt (inject_Z a) (inject_Z b) k = (inject_Z z, S k) /\
            (a <= z <= b)%Z.
Proof.
  intros HU Hab.
  assert (Hq : inject_Z a <= inject_Z b) by (rewrite <- Zle_Qle; exact Hab).
  destruct (random_bounds (inject_Z a) (inject_Z b) k HU Hq) as (B1 & B2 & _).
  unfold randomInt, bind, ret. rewrite random_value in *. cbn [fst] in B1, B2.
  set (v := Math_random k * (inject_Z b - inject_Z a) + inject_Z a) in *.
  exists (Qfloor v). split; [reflexivity|]. split.
  - rewrite <- (Qfloor_Z a). apply Qfloor_resp_le. exact B1.
  - rewrite <- (Qfloor_Z b). apply Qfloor_resp_le. exact B2.
Qed.

End Construction.

Section ConstructionTheorems.

Context {M : MathLib}.
Variable cfg : Config.

Lemma Qabs_half (r f : Q) :
  -(5 # 10) <= r -> r <= 5 # 10 -> Qabs (r * f) <= (1 # 2) * Qabs f.
Proof.
  intros L U. rewrite Qabs_Qmult.
  assert (B : Qabs r <= 1 # 2) by (apply Qabs_Qle_condition; split; lra).
  pose proof (Qabs_nonneg f) as Nf.
  generalize dependent (Qabs r). generalize dependent (Qabs f). intros. nra.
Qed.

Lemma newParticle_fresh (a b : Z) (W H : Q) (k : nat) :
  randomInUnit M ->
  particleRadiusMin cfg = inject_Z a -> particleRadiusMax cfg = inject_Z b ->
  (a < b)%Z ->
  inject_Z (2 * (b - 1)) <= W -> inject_Z (2 * (b - 1)) <= H ->
  exists p, newParticle cfg W H k = (p, (k + 5)%nat) /\ freshParticle cfg a b W H p.
Proof.
  intros HU Emin Emax Hab HW HH.
  unfold newParticle, bind, ret. rewrite Emin, Emax.
  destruct (randomInt_whole a b k HU Hab) as (z & -> & Hz).
  set (r := inject_Z z).
  assert (Hr : inject_Z z <= inject_Z (b - 1)) by (rewrite <- Zle_Qle; lia).
  assert (E2 : inject_Z (2 * (b - 1)) == 2 * inject_Z (b - 1))
    by (rewrite inject_Z_mult; reflexivity).
  fold r in Hr.
  assert (RW : r <= W - r) by lra. assert (RH : r <= H - r) by lra.
  destruct (random_bounds r (W - r) (S k) HU RW) as (X1 & X2 & _).
  destruct (random_bounds r (H - r) (S (S k)) HU RH) as (Y1 & Y2 & _).
  assert (HV : -(5 # 10) <= 5 # 10) by lra.
  destruct (random_bounds (-(5 # 10)) (5 # 10) (S (S (S k))) HU HV) as (VX1 & VX2 & _).
  destruct (random_bounds (-(5 # 10)) (5 # 10) (S (S (S (S k)))) HU HV) as (VY1 & VY2 & _).
  rewrite !random_value in *. cbn [fst] in *.
  eexists. split.
  - f_equal. lia.
  - unfold freshParticle, inCanvas. cbn [radius x y vx vy pushX pushY friction].
    split; [exists z; split; [reflexivity|lia]|].
    split; [split; split; assumption|].
    split; [reflexivity|]. split; [reflexivity|]. split; [reflexivity|].
    split; apply Qabs_half; assumption.
Qed.

(** X13: with [Math.random] in [0, 1), whole radius bounds [a < b] and a
    canvas at least [2 * (b - 1)] wide and high, [new Particle] makes five
    draws and returns a particle with a whole radius from [a] to [b - 1],
    lying within the canvas with its whole disc, with zero push, the
    configured friction, and each velocity component at most half the
    velocity factor in magnitude. *)
Theorem newParticle_postcondition (a b : Z) (W H : Q) (k : nat) :
  randomInUnit M ->
  particleRadiusMin cfg = inject_Z a -> particleRadiusMax cfg = inject_Z b ->
  (a < b)%Z ->
  inject_Z (2 * (b - 1)) <= W -> inject_Z (2 * (b - 1)) <= H ->
  let (p, k') := newParticle cfg W H k in
  k' = (k + 5)%nat /\ freshParticle cfg a b W H p.
Proof.
  intros HU Emin Emax Hab HW HH.
  destruct (newParticle_fresh a b W H k HU Emin Emax Hab HW HH) as (p & -> & F).
  split; [reflexivity|exact F].
Qed.

Lemma createLoop_Forall (P : Particle -> Prop) (W H count : Q) :
  (forall k, P (fst (newParticle cfg W H k))) ->
  forall fuel i ps k ps' k',
    createLoop cfg fuel W H count i ps k = (Some ps', k') ->
    Forall P ps -> Forall P ps'.
Proof.
  intros HP fuel. induction fuel as [|fuel IH]; intros i ps k ps' k' E HF;
    cbn [createLoop] in E; [discriminate|].
  destruct (Qltb (inject_Z (Z.of_nat i)) count).
  - unfold bind in E. specialize (HP k).
    destruct (newParticle cfg W H k) as [p k1]. cbn [fst] in HP.
    apply (IH _ _ _ _ _ E). apply Forall_app. split; [exact HF|].
    constructor; [exact HP|constructor].
  - injection E as <- _. exact HF.
Qed.

Lemma createParticles_result (fuel : nat) (s : ParticleSystem) (k : nat) :
  (Z.to_nat (Qceiling (particleCount cfg (canvasWidth s))) < fuel)%nat ->
  exists ps k',
    createLoop cfg fuel (canvasWidth s) (canvasHeight s)
      (particleCount cfg (canvasWidth s)) 0 [] k = (Some ps, k') /\
    createParticles cfg fuel s k =
    (Some (mkSystem ps (canvasWidth s) (canvasHeight s)
             (Mouse.mk (Some (- mouseInteractionRadius cfg * 2))
                       (Some (- mouseInteractionRadius cfg * 2))
                       (Mouse.radius (mouse s)))), k').
Proof.
  intro Hf.
  destruct (createLoop_length cfg fuel (canvasWidth s) (canvasHeight s)
              (particleCount cfg (canvasWidth s)) 0%nat [] k)
    as (ps & k' & E & _); [lia|].
  exists ps, k'. split; [exact E|].
  unfold createParticles, bind. rewrite E. reflexivity.
Qed.

Lemma createParticles_fresh (a b : Z) (fuel : nat) (s : ParticleSystem) (k : nat) :
  randomInUnit M ->
  particleRadiusMin cfg = inject_Z a -> particleRadiusMax cfg = inject_Z b ->
  (a < b)%Z ->
  inject_Z (2 * (b - 1)) <= canvasWidth s ->
  inject_Z (2 * (b - 1)) <= canvasHeight s ->
  (Z.to_nat (Qceiling (particleCount cfg (canvasWidth s))) < fuel)%nat ->
  exists s' k',
    createParticles cfg fuel s k = (Some s', k') /\
    Forall (freshParticle cfg a b (canvasWidth s) (canvasHeight s)) (particles s') /\
    canvasWidth s' = canvasWidth s /\ canvasHeight s' = canvasHeight s /\
    mouse s' = Mouse.mk (Some (- mouseInteractionRadius cfg * 2))
                        (Some (- mouseInteractionRadius cfg * 2))
                        (Mouse.radius (mouse s)).
Proof.
  intros HU Emin Emax Hab HW HH Hf.
  destruct (createParticles_result fuel s k Hf) as (ps & k' & E & ->).
  eexists. exists k'. split; [reflexivity|]. cbn.
  split; [|repeat split].
  assert (HP : forall k0, freshParticle cfg a b (canvasWidth s) (canvasHeight s)
                            (fst (newParticle cfg (canvasWidth s) (canvasHeight s) k0))).
  { intro k0.
    destruct (newParticle_fresh a b (canvasWidth s) (canvasHeight s) k0
                HU Emin Emax Hab HW HH) as (p & -> & F).
    exact F. }
  apply (createLoop_Forall _ _ _ _ HP _ _ _ _ _ _ E).
  constructor.
Qed.

(** X14: under the conditions of X13 and with fuel for the loop,
    [createParticles] returns a system in which every particle is as the
    constructor makes it for this canvas (within the canvas, zero push,
    whole radius in range), the extents are unchanged, and the pointer is
    at [(-2 R, -2 R)] for [R] the configured interaction radius. *)
Theorem createParticles_postcondition (a b : Z) (fuel : nat)
    (s : ParticleSystem) (k : nat) :
  randomInUnit M ->
  particleRadiusMin cfg = inject_Z a -> particleRadiusMax cfg = inject_Z b ->
  (a < b)%Z ->
  inject_Z (2 * (b - 1)) <= canvasWidth s ->
  inject_Z (2 * (b - 1)) <= canvasHeight s ->
  (Z.to_nat (Qceiling (particleCount cfg (canvasWidth s))) < fuel)%nat ->
  exists s' k',
    createParticles cfg fuel s k = (Some s', k') /\
    Forall (freshParticle cfg a b (canvasWidth s) (canvasHeight s)) (particles s') /\
    canvasWidth s' = canvasWidth s /\ canvasHeight s' = canvasHeight s /\
    pointerOf (mouse s') =
      Some (- mouseInteractionRadius cfg * 2, - mouseInteractionRadius cfg * 2) /\
    Mouse.radius (mouse s') = Mouse.radius (mouse s).
Proof.
  intros HU Emin Emax Hab HW HH Hf.
  destruct (createParticles_fresh a b fuel s k HU Emin Emax Hab HW HH Hf)
    as (s' & k' & E & F & EW & EH & Em).
  exists s', k'. rewrite Em. repeat split; assumption.
Qed.

End ConstructionTheorems.

(** ** From creation to the first pointer event *)

Lemma Qabs_le_zero (a : Q) : Qabs a <= 0 -> a == 0.
Proof. intro H. apply Qabs_Qle_condition in H. lra. Qed.

Lemma applyPhysics_push_zero W H q :
  pushX q == 0 -> pushY q == 0 ->
  pushX (applyPhysics W H q) == 0 /\ pushY (applyPhysics W H q) == 0.
Proof.
  intros HX HY. rewrite applyPhysics_unfold. set (p := integrated q).
  assert (PX : pushX p == 0)
    by (change (pushX p) with (pushX q * friction q); rewrite HX; ring).
  assert (PY : pushY p == 0)
    by (change (pushY p) with (pushY q * friction q); rewrite HY; ring).
  destruct (collideY_frame H (collideX W p)) as (_ & _ & _ & -> & _).
  split; apply Qabs_le_zero.
  - apply Qle_trans with (Qabs (pushX p)); [apply collideX_push|].
    rewrite PX. apply Qle_refl.
  - apply Qle_trans with (Qabs (pushY (collideX W p))); [apply collideY_push|].
    destruct (collideX_frame W p) as (_ & _ & _ & -> & _).
    rewrite PY. apply Qle_refl.
Qed.

Section UntilFirstMove.

Context {M : MathLib}.
Variable cfg : Config.

Lemma atRest_animate W H s :
  pointerLeftOfCanvas M W H s /\ Forall (atRestInCanvas W H) (particles s) ->
  pointerLeftOfCanvas M W H (fst (animate cfg s)) /\
  Forall (atRestInCanvas W H) (particles (fst (animate cfg s))).
Proof.
  intros [I HR]. split; [apply pointerLeftOfCanvas_animate; exact I|].
  rewrite animate_particles, (pointerLeftOfCanvas_untouched W H s I).
  destruct I as (_ & _ & EW & EH & HF). rewrite EW, EH.
  apply Forall_map. rewrite Forall_forall in *. intros q Hq.
  destruct (HR q Hq) as (PX & PY & _). destruct (HF q Hq) as (_ & RW & RH & _).
  destruct (applyPhysics_push_zero W H q PX PY) as [ZX ZY].
  split; [exact ZX|]. split; [exact ZY|].
  apply applyPhysics_inCanvas; assumption.
Qed.

(** X15: after [createParticles] and until the pointer first moves, no
    particle ever gets any push: for every number of animation frames,
    every particle still has zero push and lies within the canvas.  Assumed
    are [Math.random] in [0, 1), [Math.hypot] at least the magnitude of each
    argument, whole radius bounds [0 <= a < b] with [2 * (b - 1)] below
    both canvas extents, and a pointer radius of at most twice the
    configured interaction radius. *)
Theorem createParticles_then_frames (a b : Z) (fuel : nat)
    (s : ParticleSystem) (k n : nat) :
  randomInUnit M -> hypotDominates M ->
  particleRadiusMin cfg = inject_Z a -> particleRadiusMax cfg = inject_Z b ->
  (0 <= a < b)%Z ->
  inject_Z (2 * (b - 1)) < canvasWidth s ->
  inject_Z (2 * (b - 1)) < canvasHeight s ->
  Mouse.radius (mouse s) <= 2 * mouseInteractionRadius cfg ->
  (Z.to_nat (Qceiling (particleCount cfg (canvasWidth s))) < fuel)%nat ->
  exists s' k',
    createParticles cfg fuel s k = (Some s', k') /\
    Forall (atRestInCanvas (canvasWidth s) (canvasHeight s))
           (particles (frames cfg n s')).
Proof.
  intros HU HD Emin Emax Hab HW HH HR Hf.
  destruct (createParticles_fresh cfg a b fuel s k HU Emin Emax)
    as (s' & k' & E & F & EW & EH & Em); try lra; try lia.
  exists s', k'. split; [exact E|].
  set (W := canvasWidth s) in *. set (H := canvasHeight s) in *.
  assert (E2 : inject_Z (2 * (b - 1)) == 2 * inject_Z (b - 1))
    by (rewrite inject_Z_mult; reflexivity).
  apply (frames_invariant cfg
           (fun s0 => pointerLeftOfCanvas M W H s0 /\
                      Forall (atRestInCanvas W H) (particles s0))).
  - intros s0. apply atRest_animate.
  - split.
    + unfold pointerLeftOfCanvas. split; [exact HD|].
      split.
      { exists (- mouseInteractionRadius cfg * 2), (- mouseInteractionRadius cfg * 2).
        rewrite Em. split; [reflexivity|]. cbn. lra. }
      split; [exact EW|]. split; [exact EH|].
      eapply Forall_impl; [|exact F].
      intros p ((z & Ez & Hz) & ((X1 & _) & _) & _).
      assert (Z0 : inject_Z 0 <= inject_Z z) by (rewrite <- Zle_Qle; lia).
      assert (Z1 : inject_Z z <= inject_Z (b - 1)) by (rewrite <- Zle_Qle; lia).
      rewrite Ez in *. change (inject_Z 0) with 0 in Z0. halve.
      repeat split; try lra.
    + eapply Forall_impl; [|exact F].
      intros p (_ & IC & PX & PY & _). unfold atRestInCanvas.
      rewrite PX, PY. split; [reflexivity|]. split; [reflexivity|exact IC].
Qed.

End UntilFirstMove.

(** ** Gradient and resize *)

Section Resize.

Context {M : MathLib}.
Variable cfg : Config.

Lemma addColorStops_colors {Color} (step : Q) (index : nat) (colors : list Color) :
  map snd (addColorStops step index colors) = colors.
Proof.
  revert index. induction colors as [|c colors IH]; intro index; cbn; [reflexivity|].
  rewrite IH. reflexivity.
Qed.

Lemma addColorStops_nth {Color} (step : Q) (index : nat) (colors : list Color)
    (i : nat) (o : Q) (c : Color) :
  nth_error (addColorStops step index colors) i = Some (o, c) ->
  o = Math_min (inject_Z (Z.of_nat (index + i)) * step) 1 /\
  nth_error colors i = Some c.
Proof.
  revert index i. induction colors as [|c0 colors IH]; intros index i Hn.
  - destruct i; discriminate.
  - destruct i as [|i]; cbn in Hn.
    + injection Hn as <- <-. rewrite Nat.add_0_r. split; reflexivity.
    + apply IH in Hn. replace (index + S i)%nat with (S index + i)%nat by lia.
      exact Hn.
Qed.

(** X16: for two or more colours [applyGradientStyle] builds a gradient
    from the canvas origin to its far corner with one stop per colour, in
    the order of the list; the stop of the colour at index [i] is at
    [i / (n - 1)], so the offsets run evenly from 0 for the first colour
    to 1 for the last and the clamp to 1 never applies. *)
Theorem applyGradientStyle_stops {Color} (gradientColors : list Color)
    (s : ParticleSystem) :
  (2 <= length gradientColors)%nat ->
  exists g,
    applyGradientStyle gradientColors s = Some g /\
    (startX g, startY g) = (0, 0) /\
    (endX g, endY g) = (canvasWidth s, canvasHeight s) /\
    map snd (colorStops g) = gradientColors /\
    forall i o c,
      nth_error (colorStops g) i = Some (o, c) ->
      nth_error gradientColors i = Some c /\
      o == inject_Z (Z.of_nat i) / (inject_Z (Z.of_nat (length gradientColors)) - 1) /\
      0 <= o /\ o <= 1 /\
      (i = 0%nat -> o == 0) /\
      (S i = length gradientColors -> o == 1).
Proof.
  intro Hn. unfold applyGradientStyle.
  destruct (Nat.eqb_spec (length gradientColors) 1) as [E|_]; [lia|].
  eexists. split; [reflexivity|]. cbn [startX startY endX endY colorStops].
  split; [reflexivity|]. split; [reflexivity|].
  split; [apply addColorStops_colors|].
  intros i o c Hi.
  set (n := length gradientColors) in *.
  destruct (addColorStops_nth _ _ _ _ _ _ Hi) as [Eo Ec].
  split; [exact Ec|].
  assert (Hlt : (i < n)%nat) by (apply nth_error_Some; congruence).
  cbn [Nat.add] in Eo.
  assert (N1 : 1 <= inject_Z (Z.of_nat n) - 1).
  { assert (L : inject_Z 2 <= inject_Z (Z.of_nat n)) by (rewrite <- Zle_Qle; lia).
    change (inject_Z 2) with 2 in L. lra. }
  assert (I0 : 0 <= inject_Z (Z.of_nat i)).
  { change 0 with (inject_Z 0). rewrite <- Zle_Qle. lia. }
  assert (I1 : inject_Z (Z.of_nat i) <= inject_Z (Z.of_nat n) - 1).
  { assert (L : inject_Z (Z.of_nat i) <= inject_Z (Z.of_nat n - 1))
      by (rewrite <- Zle_Qle; lia).
    assert (E1 : inject_Z (Z.of_nat n - 1) == inject_Z (Z.of_nat n) - 1)
      by (unfold Z.sub; rewrite inject_Z_plus, inject_Z_opp; reflexivity).
    lra. }
  set (qi := inject_Z (Z.of_nat i)) in *.
  set (d := inject_Z (Z.of_nat n) - 1) in *.
  assert (V : qi * (1 / d) == qi / d) by (field; lra).
  assert (U : qi / d <= 1) by (apply Qle_shift_div_r; lra).
  assert (L : 0 <= qi / d) by (apply Qle_shift_div_l; lra).
  assert (Em : o == qi / d).
  { rewrite Eo. unfold Math_min. rewrite Q.min_l by (rewrite V; exact U). exact V. }
  split; [exact Em|]. split; [rewrite Em; exact L|]. split; [rewrite Em; exact U|].
  split.
  - intros ->. rewrite Em. subst qi. cbn [Z.of_nat]. change (inject_Z 0) with 0.
    field. lra.
  - intro Hl. rewrite Em.
    assert (Eq : qi == d).
    { subst qi d. rewrite <- Hl. rewrite Nat2Z.inj_succ. unfold Z.succ.
      rewrite inject_Z_plus. change (inject_Z 1) with 1. ring. }
    rewrite Eq. field. lra.
Qed.

(** X17: with at least two (or no) colours, the conditions of X13 for the
    new extents and fuel for the loop, [handleResize] returns a system
    with the new extents whose particles are all freshly constructed for
    the new canvas, and a gradient to the new far corner; nothing of the
    old particles, the old extents or the old pointer position remains:
    two systems with the same pointer radius give the same result. *)
Theorem handleResize_postcondition {Color} (gradientColors : list Color)
    (a b : Z) (innerWidth innerHeight : Q) (fuel : nat)
    (s : ParticleSystem) (k : nat) :
  length gradientColors <> 1%nat ->
  randomInUnit M ->
  particleRadiusMin cfg = inject_Z a -> particleRadiusMax cfg = inject_Z b ->
  (a < b)%Z ->
  inject_Z (2 * (b - 1)) <= innerWidth ->
  inject_Z (2 * (b - 1)) <= innerHeight ->
  (Z.to_nat (Qceiling (particleCount cfg innerWidth)) < fuel)%nat ->
  (exists g s' k',
     handleResize cfg gradientColors innerWidth innerHeight fuel s k
       = (Some (g, s'), k') /\
     (endX g, endY g) = (innerWidth, innerHeight) /\
     canvasWidth s' = innerWidth /\ canvasHeight s' = innerHeight /\
     Forall (freshParticle cfg a b innerWidth innerHeight) (particles s')) /\
  (forall s2, Mouse.radius (mouse s2) = Mouse.radius (mouse s) ->
     handleResize cfg gradientColors innerWidth innerHeight fuel s2 k
     = handleResize cfg gradientColors innerWidth innerHeight fuel s k).
Proof.
  intros Hc HU Emin Emax Hab HW HH Hf. split.
  - unfold handleResize, applyGradientStyle.
    apply Nat.eqb_neq in Hc. rewrite Hc. unfold bind, ret.
    set (s1 := mkSystem (particles s) innerWidth innerHeight (mouse s)).
    destruct (createParticles_fresh cfg a b fuel s1 k HU Emin Emax Hab HW HH Hf)
      as (s' & k' & E & F & EW & EH & _).
    rewrite E. eexists. exists s', k'. split; [reflexivity|].
    cbn [endX endY canvasWidth canvasHeight].
    repeat split; assumption.
  - intros s2 Hr. unfold handleResize, applyGradientStyle, createParticles, bind.
    cbn [canvasWidth canvasHeight mouse]. rewrite Hr. reflexivity.
Qed.

End Resize.

(** ** The connection graph, continued *)

Lemma Qltb_compat (a a' b b' : Q) : a == a' -> b == b' -> Qltb a b = Qltb a' b'.
Proof.
  intros Ea Eb.
  destruct (Qltb_spec a b) as [L|L]; destruct (Qltb_spec a' b') as [L'|L'];
    try reflexivity; exfalso; apply L || apply L'; lra.
Qed.

Lemma Qsquare_nonneg (a : Q) : 0 <= a * a.
Proof.
  destruct (Qlt_le_dec a 0) as [L|L].
  - setoid_replace (a * a) with ((- a) * (- a)) by ring.
    apply Qmult_le_0_compat; lra.
  - apply Qmult_le_0_compat; exact L.
Qed.

Lemma distSq_nonneg (p q : Particle) : 0 <= distSq p q.
Proof.
  unfold distSq.
  pose proof (Qsquare_nonneg (x p - x q)). pose proof (Qsquare_nonneg (y p - y q)).
  lra.
Qed.

Lemma distSq_translate (a b : Q) (p q : Particle) :
  distSq (translate a b p) (translate a b q) == distSq p q.
Proof. unfold distSq, translate. cbn. ring. Qed.

Section ConnectionGraphMore.

Context {M : MathLib}.
Variable cfg : Config.

Local Open Scope nat_scope.

Lemma connectPeers_alpha p1 i j rest c :
  Forall (fun e => (0 <= globalAlpha e /\ globalAlpha e <= 1)%Q)
         (connectPeers cfg p1 i j rest c).
Proof.
  revert j c. induction rest as [|p2 rest IH]; intros j c; cbn; [constructor|].
  destruct (connectionMaxPeers cfg <=? c); [constructor|].
  destruct (Qltb _ _); [|apply IH].
  constructor; [|apply IH]. cbn. unfold Math_max, Math_min. split.
  - apply Q.le_max_l.
  - apply Q.max_lub; [discriminate|apply Q.le_min_r].
Qed.

Lemma connectPeers_near p1 i j rest c :
  Forall (fun e => ((x1 e - x2 e) * (x1 e - x2 e) + (y1 e - y2 e) * (y1 e - y2 e)
                    < connectionMaxDistance cfg * connectionMaxDistance cfg)%Q)
         (connectPeers cfg p1 i j rest c).
Proof.
  revert j c. induction rest as [|p2 rest IH]; intros j c; cbn; [constructor|].
  destruct (connectionMaxPeers cfg <=? c); [constructor|].
  destruct (Qltb_spec ((x p1 - x p2) * (x p1 - x p2) + (y p1 - y p2) * (y p1 - y p2))
              (connectionMaxDistance cfg * connectionMaxDistance cfg)) as [L|_];
    [|apply IH].
  constructor; [exact L|apply IH].
Qed.

Lemma connectPeers_dst p1 i j rest c :
  map dst (connectPeers cfg p1 i j rest c) =
  firstn (connectionMaxPeers cfg - c)
         (closeIndices (connectionMaxDistance cfg) p1 j rest).
Proof.
  revert j c. induction rest as [|p2 rest IH]; intros j c; cbn [connectPeers closeIndices].
  - rewrite firstn_nil. reflexivity.
  - destruct (Nat.leb_spec (connectionMaxPeers cfg) c) as [L|L].
    + replace (connectionMaxPeers cfg - c) with 0 by lia. reflexivity.
    + unfold distSq. cbv zeta.
      destruct (Qltb _ _).
      * replace (connectionMaxPeers cfg - c) with (S (connectionMaxPeers cfg - S c)) by lia.
        cbn. rewrite IH. reflexivity.
      * apply IH.
Qed.

Lemma connectPeers_at_most_rest p1 i j rest c :
  length (connectPeers cfg p1 i j rest c) <= length rest.
Proof.
  revert j c. induction rest as [|p2 rest IH]; intros j c; cbn; [lia|].
  destruct (connectionMaxPeers cfg <=? c); [cbn; lia|].
  destruct (Qltb _ _).
  - cbn. specialize (IH (S j) (S c)). lia.
  - specialize (IH (S j) c). lia.
Qed.

Lemma outgoing_connectFrom k i ps p1 :
  i <= k -> nth_error ps (k - i) = Some p1 ->
  outgoing k (connectFrom cfg i ps) =
  connectPeers cfg p1 k (S k) (skipn (S (k - i)) ps) 0.
Proof.
  revert i. induction ps as [|p ps IH]; intros i Hik Hn.
  - destruct (k - i); discriminate.
  - cbn [connectFrom]. rewrite outgoing_app.
    destruct (Nat.eq_dec k i) as [->|Hne].
    + rewrite Nat.sub_diag in *. cbn in Hn. injection Hn as ->.
      rewrite outgoing_connectPeers_same.
      rewrite (outgoing_connectFrom_below cfg i (S i) ps) by lia.
      cbn. apply app_nil_r.
    + rewrite (outgoing_connectPeers_other cfg k p i (S i) ps 0 Hne).
      replace (k - i) with (S (k - S i)) in * by lia.
      cbn in Hn. cbn [app skipn]. apply IH; [lia|exact Hn].
Qed.

Lemma connectFrom_pairs i ps :
  2 * length (connectFrom cfg i ps) <= length ps * (length ps - 1).
Proof.
  revert i. induction ps as [|p ps IH]; intro i; cbn [connectFrom length]; [lia|].
  rewrite length_app.
  pose proof (connectPeers_at_most_rest p i (S i) ps 0).
  specialize (IH (S i)). nia.
Qed.

Lemma connectPeers_no_cap p1 i j rest c :
  connectionMaxPeers cfg = 0 -> connectPeers cfg p1 i j rest c = [].
Proof.
  intro E. destruct rest as [|p2 rest]; cbn; [reflexivity|].
  rewrite E. reflexivity.
Qed.

Lemma connectPeers_no_distance p1 i j rest c :
  (connectionMaxDistance cfg == 0)%Q -> connectPeers cfg p1 i j rest c = [].
Proof.
  intro E. revert j c. induction rest as [|p2 rest IH]; intros j c; cbn; [reflexivity|].
  destruct (connectionMaxPeers cfg <=? c); [reflexivity|].
  destruct (Qltb_spec ((x p1 - x p2) * (x p1 - x p2) + (y p1 - y p2) * (y p1 - y p2))
              (connectionMaxDistance cfg * connectionMaxDistance cfg)) as [L|_];
    [|apply IH].
  exfalso. pose proof (distSq_nonneg p1 p2) as N. unfold distSq in N.
  rewrite E in L. lra.
Qed.

Lemma closeIndices_translate D a b p1 j rest :
  closeIndices D (translate a b p1) j (map (translate a b) rest)
  = closeIndices D p1 j rest.
Proof.
  revert j. induction rest as [|p2 rest IH]; intro j; cbn [closeIndices map]; [reflexivity|].
  rewrite (Qltb_compat _ (distSq p1 p2) _ (D * D) (distSq_translate a b p1 p2))
    by reflexivity.
  rewrite !IH. reflexivity.
Qed.

Lemma connectPeers_ends_dst p1 i j rest c :
  map ends (connectPeers cfg p1 i j rest c)
  = map (pair i) (map dst (connectPeers cfg p1 i j rest c)).
Proof.
  rewrite map_map. apply map_ext_in. intros e He.
  pose proof (connectPeers_ends cfg p1 i j rest c) as HE.
  rewrite Forall_forall in HE. destruct (HE e He) as [Hs _].
  unfold ends. rewrite Hs. reflexivity.
Qed.

Lemma connectFrom_translate a b i ps :
  map ends (connectFrom cfg i (map (translate a b) ps))
  = map ends (connectFrom cfg i ps).
Proof.
  revert i. induction ps as [|p ps IH]; intro i; cbn [connectFrom map]; [reflexivity|].
  rewrite !map_app, IH. f_equal.
  rewrite !connectPeers_ends_dst, !connectPeers_dst, closeIndices_translate.
  reflexivity.
Qed.

(** X18: every line stroked by [drawConnections] has a [globalAlpha]
    between 0 and 1, whatever [Math.sqrt] returns. *)
Theorem drawConnections_alpha_clamped (ps : list Particle) :
  Forall (fun e => (0 <= globalAlpha e /\ globalAlpha e <= 1)%Q)
         (drawConnections cfg ps).
Proof.
  unfold drawConnections. generalize 0.
  induction ps as [|p ps IH]; intro i; cbn [connectFrom]; [constructor|].
  apply Forall_app. split; [apply connectPeers_alpha|apply IH].
Qed.

(** X19: every line stroked by [drawConnections] joins two points whose
    squared distance is strictly below the square of
    [connectionMaxDistance]. *)
Theorem drawConnections_only_near (ps : list Particle) :
  Forall (fun e => ((x1 e - x2 e) * (x1 e - x2 e) + (y1 e - y2 e) * (y1 e - y2 e)
                    < connectionMaxDistance cfg * connectionMaxDistance cfg)%Q)
         (drawConnections cfg ps).
Proof.
  unfold drawConnections. generalize 0.
  induction ps as [|p ps IH]; intro i; cbn [connectFrom]; [constructor|].
  apply Forall_app. split; [apply connectPeers_near|apply IH].
Qed.

(** X20: the partners of the particle at index [i] are exactly the first
    [connectionMaxPeers] of the later particles that are near it, in index
    order: none is skipped before the cap and none is taken after it. *)
Theorem drawConnections_partners (ps : list Particle) (i : nat) (p1 : Particle) :
  nth_error ps i = Some p1 ->
  map dst (outgoing i (drawConnections cfg ps)) =
  firstn (connectionMaxPeers cfg)
         (closeIndices (connectionMaxDistance cfg) p1 (S i) (skipn (S i) ps)).
Proof.
  intro Hn. unfold drawConnections.
  rewrite (outgoing_connectFrom i 0 ps p1); [|lia|rewrite Nat.sub_0_r; exact Hn].
  rewrite connectPeers_dst, !Nat.sub_0_r. reflexivity.
Qed.

(** X21: the particle at index [i] of [N] has at most [N - 1 - i] partners,
    so [drawConnections] strokes at most [N (N - 1) / 2] lines, and none
    when there are fewer than two particles. *)
Theorem drawConnections_pair_bound (ps : list Particle) :
  (forall i, length (outgoing i (drawConnections cfg ps)) <= length ps - 1 - i) /\
  2 * length (drawConnections cfg ps) <= length ps * (length ps - 1) /\
  (length ps <= 1 -> drawConnections cfg ps = []).
Proof.
  unfold drawConnections. split; [|split].
  - intro i. destruct (nth_error ps i) as [p1|] eqn:Hn.
    + rewrite (outgoing_connectFrom i 0 ps p1); [|lia|rewrite Nat.sub_0_r; exact Hn].
      rewrite Nat.sub_0_r.
      pose proof (connectPeers_at_most_rest p1 i (S i) (skipn (S i) ps) 0) as L.
      rewrite length_skipn in L. lia.
    + apply nth_error_None in Hn.
      rewrite outgoing_none; [cbn; lia|].
      eapply Forall_impl; [|apply (connectFrom_ends cfg 0 ps)].
      cbn. intros e He. lia.
  - apply connectFrom_pairs.
  - intro Hl. pose proof (connectFrom_pairs 0 ps) as P.
    destruct (connectFrom cfg 0 ps) as [|e es]; [reflexivity|].
    cbn [length] in P. nia.
Qed.

(** X22: with a peer cap of 0, or a maximal distance of 0,
    [drawConnections] strokes nothing. *)
Theorem drawConnections_disabled (ps : list Particle) :
  connectionMaxPeers cfg = 0 \/ (connectionMaxDistance cfg == 0)%Q ->
  drawConnections cfg ps = [].
Proof.
  intro Hd. unfold drawConnections. generalize 0.
  induction ps as [|p ps IH]; intro i; cbn [connectFrom]; [reflexivity|].
  rewrite IH, app_nil_r.
  destruct Hd as [E|E]; [apply connectPeers_no_cap|apply connectPeers_no_distance];
    exact E.
Qed.

(** X23: which pairs of indices are joined depends on relative positions
    only: moving every particle by the same vector gives the same pairs in
    the same order. *)
Theorem drawConnections_translation (a b : Q) (ps : list Particle) :
  map ends (drawConnections cfg (map (translate a b) ps))
  = map ends (drawConnections cfg ps).
Proof. apply connectFrom_translate. Qed.

End ConnectionGraphMore.

(** ** What a frame draws *)

Section FrameOutput.

Context {M : MathLib}.
Variable cfg : Config.

Lemma animate_output s :
  snd (animate cfg s) =
  mkFrame (drawConnections cfg (particles (fst (animate cfg s))))
          (map draw (particles (fst (animate cfg s)))).
Proof. reflexivity. Qed.

(** X24: in every frame there is one disc per particle, and each line
    stroked runs between the centres of two discs filled in the same
    frame, those of the particles at its two indices after the physics
    step. *)
Theorem animate_lines_join_discs (s : ParticleSystem) :
  let f := snd (animate cfg s) in
  length (fills f) = length (particles s) /\
  Forall (fun e => exists c1 c2,
            nth_error (fills f) (src e) = Some c1 /\
            nth_error (fills f) (dst e) = Some c2 /\
            (x1 e, y1 e) = (centerX c1, centerY c1) /\
            (x2 e, y2 e) = (centerX c2, centerY c2))
         (strokes f).
Proof.
  intro f. subst f. rewrite animate_output. cbn [fills strokes].
  split.
  - rewrite length_map.
    pose proof (animate_sameBody cfg s) as F. apply (Forall2_length F).
  - unfold drawConnections.
    pose proof (connectFrom_points cfg 0 (particles (fst (animate cfg s)))) as HP.
    rewrite Forall_forall in *. intros e He.
    destruct (HP e He) as (p1 & p2 & N1 & N2 & E1 & E2 & E3 & E4).
    rewrite Nat.sub_0_r in N1, N2.
    exists (draw p1), (draw p2).
    rewrite !nth_error_map, N1, N2. cbn.
    repeat split; congruence.
Qed.

Lemma frames_small_radii n s :
  Forall (fun p => radius p < canvasWidth s / 2 /\ radius p < canvasHeight s / 2)
         (particles s) ->
  Forall (fun p => radius p < canvasWidth s / 2 /\ radius p < canvasHeight s / 2)
         (particles (frames cfg n s)).
Proof.
  intro HF.
  pose proof (frames_Forall2 cfg (fun _ => True) sameBody (fun _ => sameBody)
                (fun _ _ => I) (fun s0 _ => animate_sameBody cfg s0)
                sameBody_refl (fun _ a b c => sameBody_trans a b c) n s I) as F.
  revert HF. induction F as [|a c la lc (Er & _) _ IH]; intro HF; constructor.
  - apply Forall_inv in HF. rewrite Er. exact HF.
  - apply IH. apply Forall_inv_tail in HF. exact HF.
Qed.

(** X25: when every radius is strictly less than half of each canvas
    extent, every disc filled in every frame lies wholly within the
    canvas, from the first frame on. *)
Theorem animate_discs_in_canvas (n : nat) (s : ParticleSystem) :
  Forall (fun p => radius p < canvasWidth s / 2 /\ radius p < canvasHeight s / 2)
         (particles s) ->
  Forall (discInCanvas (canvasWidth s) (canvasHeight s))
         (fills (snd (animate cfg (frames cfg n s)))).
Proof.
  intro HF. rewrite animate_output. cbn [fills].
  apply Forall_map.
  pose proof (frames_small_radii n s HF) as HR.
  pose proof (animate_smallInCanvas cfg (canvasWidth s) (canvasHeight s)
                (frames cfg n s) (frames_width cfg n s) (frames_height cfg n s) HR)
    as (_ & _ & HI).
  eapply Forall_impl; [|exact HI].
  intros p (_ & (X1 & X2) & (Y1 & Y2)). unfold discInCanvas, draw. cbn.
  repeat split; lra.
Qed.

End FrameOutput.

(** ** The sample data meets the assumptions *)

Lemma sample_random_in_unit (k : nat) :
  0 <= Z.of_nat ((k * 37) mod 100) # 100 /\ Z.of_nat ((k * 37) mod 100) # 100 < 1.
Proof.
  pose proof (Nat.mod_upper_bound (k * 37) 100) as B.
  generalize dependent ((k * 37) mod 100)%nat. intros m B.
  unfold Qle, Qlt. cbn [Qnum Qden]. lia.
Qed.

Lemma sampleMath_randomInUnit : randomInUnit sampleMath.
Proof. intro k. apply sample_random_in_unit. Qed.

Lemma upMath_randomInUnit : randomInUnit upMath.
Proof. intro k. apply sample_random_in_unit. Qed.

Lemma sqrt_up_square (c : Z) : (c <= Z.sqrt_up c * Z.sqrt_up c)%Z.
Proof.
  destruct (Z_lt_le_dec 0 c) as [L|L].
  - apply Z.sqrt_up_spec in L. lia.
  - rewrite Z.sqrt_up_eqn0 by exact L. lia.
Qed.

Lemma hypot_up_dominates (a t : Q) :
  a * a <= t -> Qabs a <= inject_Z (Z.sqrt_up (Qceiling t)).
Proof.
  intro Ha.
  pose proof (Qle_ceiling t) as Hc.
  pose proof (sqrt_up_square (Qceiling t)) as Hs.
  pose proof (Z.sqrt_up_nonneg (Qceiling t)) as Hn.
  rewrite Zle_Qle, inject_Z_mult in Hs. rewrite Zle_Qle in Hn.
  change (inject_Z 0) with 0 in Hn.
  generalize dependent (inject_Z (Z.sqrt_up (Qceiling t))). intros u Hs Hn.
  assert (Hq : Qabs a * Qabs a == a * a).
  { apply Qabs_case; intros _; ring. }
  pose proof (Qabs_nonneg a) as Na.
  generalize dependent (Qabs a). intros v Hq Na.
  destruct (Qlt_le_dec u v) as [L|L]; [|exact L].
  exfalso.
  assert (P : u * u < v * v) by (apply Qmult_lt_compat_nonneg; split; lra).
  lra.
Qed.

Lemma upMath_hypotDominates : hypotDominates upMath.
Proof.
  intros dx dy. cbn [Math_hypot upMath]. unfold hypot_up.
  pose proof (Qsquare_nonneg dx). pose proof (Qsquare_nonneg dy).
  split; apply hypot_up_dominates; lra.
Qed.

(** ** The further properties on the sample data *)

Lemma applyPhysics_stationary_witness :
  let p' := applyPhysics 800 600 (restingAt 60 80) in
  x p' == x (restingAt 60 80) /\ y p' == y (restingAt 60 80) /\
  vx p' == 0 /\ vy p' == 0 /\ pushX p' == 0 /\ pushY p' == 0.
Proof.
  apply (applyPhysics_stationary 800 600 (restingAt 60 80)); by_computation.
Defined.

Lemma applyPhysics_bounce_inward_witness :
  x (applyPhysics 800 600 wallParticle) = radius wallParticle /\
  0 < vx (applyPhysics 800 600 wallParticle).
Proof.
  apply (proj1 (applyPhysics_bounce_inward 800 600 wallParticle
                  ltac:(by_computation) ltac:(by_computation) ltac:(by_computation))).
  by_computation.
Defined.

Lemma frames_in_canvas_witness :
  Forall (inCanvas 800 600) (particles (@frames sampleMath config 3%nat pushedSystem)).
Proof.
  apply (@frames_in_canvas sampleMath config 3%nat pushedSystem).
  - lia.
  - repeat (constructor; [by_computation|]). constructor.
Defined.

Lemma frames_no_force_pointer_absent_witness :
  particles (@applyMouseInteraction sampleMath (@frames sampleMath config 3%nat pushedSystem))
  = particles (@frames sampleMath config 3%nat pushedSystem) /\
  Forall2 pushNotGrown (particles (@frames sampleMath config 3%nat pushedSystem))
          (particles pushedSystem).
Proof.
  apply (@frames_no_force_pointer_absent sampleMath config 3%nat pushedSystem).
  reflexivity.
Defined.

Lemma idleSystem_pointerLeftOfCanvas : pointerLeftOfCanvas upMath 800 600 idleSystem.
Proof.
  unfold pointerLeftOfCanvas. split; [exact upMath_hypotDominates|].
  split.
  - exists (-400), (-400). split; [reflexivity|by_computation].
  - split; [reflexivity|]. split; [reflexivity|].
    repeat (constructor; [by_computation|]). constructor.
Qed.

Lemma frames_no_force_pointer_off_canvas_witness :
  particles (@applyMouseInteraction upMath (@frames upMath config 3%nat idleSystem))
  = particles (@frames upMath config 3%nat idleSystem) /\
  Forall2 pushNotGrown (particles (@frames upMath config 3%nat idleSystem))
          (particles idleSystem).
Proof.
  apply (@frames_no_force_pointer_off_canvas upMath config 3%nat idleSystem).
  exact idleSystem_pointerLeftOfCanvas.
Defined.

Lemma applyMouseInteraction_bounded_witness :
  Forall2 (fun q' q =>
             Qabs (pushX q' - pushX q) < 5 /\ Qabs (pushY q' - pushY q) < 5)
          (particles (@applyMouseInteraction upMath sampleSystem))
          (particles sampleSystem).
Proof.
  apply (@applyMouseInteraction_bounded upMath sampleSystem).
  exact upMath_hypotDominates.
Defined.

Lemma applyMouseInteraction_compounds_witness :
  let q := restingAt 60 80 in
  let q1 := @pushFromMouse sampleMath 0 0 200 q in
  let q2 := @pushFromMouse sampleMath 0 0 200 q1 in
  (q1 = q /\ q2 = q) \/
  exists dX dY,
    pushX q1 = pushX q + dX /\ pushY q1 = pushY q + dY /\
    pushX q2 = pushX q1 + dX /\ pushY q2 = pushY q1 + dY.
Proof.
  apply (@applyMouseInteraction_compounds sampleMath sampleSystem 0%nat);
    reflexivity.
Defined.

Lemma random_in_range_witness :
  let (v, k') := @random sampleMath (inject_Z 2) (inject_Z 7) 3%nat in
  k' = 4%nat /\ inject_Z 2 <= v /\ v <= inject_Z 7.
Proof.
  apply (@random_in_range sampleMath 2 7 3%nat sampleMath_randomInUnit). lia.
Defined.

Lemma randomInt_in_range_witness :
  exists z, @randomInt sampleMath (inject_Z 1) (inject_Z 11) 0%nat = (inject_Z z, 1%nat) /\
            (1 <= z <= 11)%Z.
Proof.
  apply (@randomInt_in_range sampleMath 1 11 0%nat sampleMath_randomInUnit). lia.
Defined.

Lemma newParticle_postcondition_witness :
  let (p, k') := @newParticle sampleMath config 800 600 0%nat in
  k' = 5%nat /\ freshParticle config 1 11 800 600 p.
Proof.
  apply (@newParticle_postcondition sampleMath config 1 11 800 600 0%nat
           sampleMath_randomInUnit eq_refl eq_refl);
    [lia|by_computation|by_computation].
Defined.

Lemma createParticles_postcondition_witness :
  exists s' k',
    @createParticles sampleMath config 500%nat wideSystem 0%nat = (Some s', k') /\
    Forall (freshParticle config 1 11 800 600) (particles s') /\
    canvasWidth s' = 800 /\ canvasHeight s' = 600 /\
    pointerOf (mouse s') = Some (- (200) * 2, - (200) * 2) /\
    Mouse.radius (mouse s') = 200.
Proof.
  apply (@createParticles_postcondition sampleMath config 1 11 500%nat wideSystem 0%nat
           sampleMath_randomInUnit eq_refl eq_refl);
    [lia|by_computation|by_computation|vm_compute; lia].
Defined.

Lemma createParticles_then_frames_witness :
  exists s' k',
    @createParticles upMath config 500%nat wideSystem 0%nat = (Some s', k') /\
    Forall (atRestInCanvas 800 600) (particles (@frames upMath config 2%nat s')).
Proof.
  apply (@createParticles_then_frames upMath config 1 11 500%nat wideSystem 0%nat 2%nat
           upMath_randomInUnit upMath_hypotDominates eq_refl eq_refl);
    [lia|by_computation|by_computation|by_computation|vm_compute; lia].
Defined.

Lemma applyGradientStyle_stops_witness :
  exists g,
    applyGradientStyle Colors.gradientColors wideSystem = Some g /\
    (startX g, startY g) = (0, 0) /\
    (endX g, endY g) = (800, 600) /\
    map snd (colorStops g) = Colors.gradientColors /\
    forall i o c,
      nth_error (colorStops g) i = Some (o, c) ->
      nth_error Colors.gradientColors i = Some c /\
      o == inject_Z (Z.of_nat i) / (inject_Z (Z.of_nat 5%nat) - 1) /\
      0 <= o /\ o <= 1 /\
      (i = 0%nat -> o == 0) /\
      (S i = 5%nat -> o == 1).
Proof.
  apply (applyGradientStyle_stops Colors.gradientColors wideSystem).
  cbn. lia.
Defined.

Lemma handleResize_postcondition_witness :
  exists g s' k',
    @handleResize sampleMath config _ Colors.gradientColors 1024 768 500%nat sampleSystem 0%nat
      = (Some (g, s'), k') /\
    (endX g, endY g) = (1024, 768) /\
    canvasWidth s' = 1024 /\ canvasHeight s' = 768 /\
    Forall (freshParticle config 1 11 1024 768) (particles s').
Proof.
  apply (proj1 (@handleResize_postcondition sampleMath config _ Colors.gradientColors
                  1 11 1024 768 500%nat sampleSystem 0%nat
                  ltac:(discriminate) sampleMath_randomInUnit eq_refl eq_refl
                  ltac:(lia) ltac:(by_computation) ltac:(by_computation)
                  ltac:(vm_compute; lia))).
Defined.

Lemma drawConnections_partners_witness :
  map dst (outgoing 0%nat (@drawConnections sampleMath config linePs)) =
  firstn 4%nat (closeIndices 100 (restingAt 0 0) 1%nat (skipn 1%nat linePs)).
Proof.
  apply (@drawConnections_partners sampleMath config linePs 0%nat (restingAt 0 0)).
  reflexivity.
Defined.

Lemma drawConnections_pair_bound_witness :
  @drawConnections sampleMath config [restingAt 0 0] = [].
Proof.
  apply (proj2 (proj2 (@drawConnections_pair_bound sampleMath config [restingAt 0 0]))).
  cbn. lia.
Defined.

Lemma drawConnections_disabled_witness :
  @drawConnections sampleMath noPeersConfig linePs = [].
Proof.
  apply (@drawConnections_disabled sampleMath noPeersConfig linePs).
  left. reflexivity.
Defined.

Lemma animate_discs_in_canvas_witness :
  Forall (discInCanvas 800 600)
         (fills (snd (@animate sampleMath config (@frames sampleMath config 2%nat pushedSystem)))).
Proof.
  apply (@animate_discs_in_canvas sampleMath config 2%nat pushedSystem).
  repeat (constructor; [by_computation|]). constructor.
Defined.
